(** * dataExtractor_pdf: the segmentation and field-extraction engine of [main.py]

    The program turns the text of a directory-style PDF into a list of school
    records.  Everything it does to the text goes through Python's [re]
    module, so the development has these parts:

    - [Module Py]: the part of Python the program relies on: the classification
      of characters, [str.strip], [str.join], an insertion-ordered [dict], and a
      backtracking regular-expression matcher with the entry points
      [re.match], [re.search], [re.findall], [re.sub] and [re.split];
    - [Module Main]: the patterns and the functions of [main.py], written over
      that layer in an exception monad;
    - [Module Spec]: plain functions and predicates the theorems are stated
      with;
    - [Module PyFacts] and [Module MainFacts]: the theorems.

    Text is a list of characters.  A character is a code point of the range
    U+0000..U+00FF, which is what [ascii] enumerates; the classes [\s], [\w]
    and [\d] are Python's on that range. *)

From Stdlib Require Import Ascii String Bool Arith Lia List Permutation.
Import ListNotations.

Set Implicit Arguments.

Module Py.

(** ** Characters *)

Definition str := list ascii.

Definition py (s : string) : str := list_ascii_of_string s.

Definition code (c : ascii) : nat := nat_of_ascii c.

Definition between (lo hi : nat) (c : ascii) : bool :=
  (lo <=? code c) && (code c <=? hi).

(** [str.isdecimal], which is what [\d] tests. *)
Definition isdecimal (c : ascii) : bool := between 48 57 c.

Definition isupper (c : ascii) : bool := between 65 90 c.

Definition islower (c : ascii) : bool := between 97 122 c.

(** [str.isspace], which is what [\s] and [str.strip] test: the ASCII
    whitespace and separators, NEL and the no-break space. *)
Definition isspace (c : ascii) : bool :=
  between 9 13 c || between 28 32 c || (code c =? 133) || (code c =? 160).

(** [str.isalnum]: letters, decimal digits, and the letters and numerics of
    the Latin-1 supplement. *)
Definition isalnum (c : ascii) : bool :=
  isdecimal c || isupper c || islower c
  || (code c =? 170) || between 178 179 c || (code c =? 181)
  || between 185 186 c || between 188 190 c
  || between 192 214 c || between 216 246 c || between 248 255 c.

(** [\w]. *)
Definition isword (c : ascii) : bool := isalnum c || (code c =? 95).

(** Case folding of the ASCII letters.  The patterns of the program hold only
    ASCII literals, and below U+0100 the case variants of an ASCII letter are
    ASCII. *)
Definition lower (c : ascii) : ascii :=
  if isupper c then ascii_of_nat (code c + 32) else c.

Definition upper (c : ascii) : ascii :=
  if islower c then ascii_of_nat (code c - 32) else c.

Definition mem (c : ascii) (s : str) : bool := existsb (Ascii.eqb c) s.

(** ** Strings *)

Fixpoint lstrip (s : str) : str :=
  match s with
  | x :: s' => if isspace x then lstrip s' else s
  | [] => []
  end.

Definition rstrip (s : str) : str := rev (lstrip (rev s)).

(** [s.strip()] *)
Definition strip (s : str) : str := rstrip (lstrip s).

(** [sep.join(l)] *)
Fixpoint join (sep : str) (l : list str) : str :=
  match l with
  | [] => []
  | [a] => a
  | a :: l' => a ++ sep ++ join sep l'
  end.

Fixpoint startswith (s p : str) {struct p} : bool :=
  match p, s with
  | [], _ => true
  | a :: p', b :: s' => Ascii.eqb b a && startswith s' p'
  | _ :: _, [] => false
  end.

Definition str_eq_dec : forall a b : str, {a = b} + {a <> b} :=
  list_eq_dec ascii_dec.

(** ** Exceptions *)

Inductive exn := AttributeError | IndexError | KeyError.

Inductive result (A : Type) :=
| Ok (a : A)
| Raise (e : exn).

Arguments Ok {A} a.
Arguments Raise {A} e.

Definition bind {A B : Type} (m : result A) (f : A -> result B) : result B :=
  match m with
  | Ok a => f a
  | Raise e => Raise e
  end.

Notation "x <- m ;; k" := (bind m (fun x => k))
  (at level 61, m at next level, right associativity).

(** A [for] loop that threads a value through its body. *)
Fixpoint for_each {A S : Type} (l : list A) (body : S -> A -> result S) (s : S)
  : result S :=
  match l with
  | [] => Ok s
  | a :: l' => s' <- body s a ;; for_each l' body s'
  end.

(** A [for] loop that appends one value per round. *)
Fixpoint collect {A B : Type} (l : list A) (body : A -> result B)
  : result (list B) :=
  match l with
  | [] => Ok []
  | a :: l' => b <- body a ;; bs <- collect l' body ;; Ok (b :: bs)
  end.

(** [l[i]] *)
Definition index {A : Type} (l : list A) (i : nat) : result A :=
  match nth_error l i with
  | Some a => Ok a
  | None => Raise IndexError
  end.

(** [range(start, stop, step)] for a positive step *)
Definition range (start stop step : nat) : list nat :=
  map (fun i => start + step * i) (seq 0 ((stop - start + step - 1) / step)).

(** ** Dictionaries

    A [dict] keeps its keys in insertion order; assigning to a key that is
    present replaces the value in place, assigning to a new key appends. *)

Definition dict := list (string * str).

Fixpoint dict_set (k : string) (v : str) (d : dict) : dict :=
  match d with
  | [] => [(k, v)]
  | (k', v') :: d' =>
      if String.eqb k' k then (k', v) :: d' else (k', v') :: dict_set k v d'
  end.

Fixpoint dict_get (k : string) (d : dict) : result str :=
  match d with
  | [] => Raise KeyError
  | (k', v') :: d' => if String.eqb k' k then Ok v' else dict_get k d'
  end.

Definition keys (d : dict) : list string := map fst d.

(** ** Sets

    [set(l)] holds the distinct elements of [l]; the order in which a set is
    iterated is the hash table's, which the language leaves open.  An
    implementation is any function that lists the distinct elements once
    each. *)

Record set_impl := SetImpl {
  elements : list str -> list str;
  elements_perm : forall l, Permutation (elements l) (nodup str_eq_dec l)
}.

(** One implementation: first occurrences, in order. *)
Definition first_seen : set_impl.
Proof.
  refine (SetImpl (fun l => nodup str_eq_dec l) _).
  intro l. apply Permutation_refl.
Defined.

(** ** Regular expressions *)

(** What matches one character. *)
Inductive atom :=
| Lit (c : ascii)                 (* the character itself *)
| OneOf (p : ascii -> bool).      (* a set [...] or a class \s \w \d . *)

Inductive regex :=
| Eps
| Chr (a : atom)
| Seq (r1 r2 : regex)
| Alt (r1 r2 : regex)
| Rep (greedy : bool) (lo : nat) (hi : option nat) (a : atom)
                                  (* a{lo,hi}, with ? appended when lazy *)
| Group (n : nat) (r : regex)     (* the n-th pair of parentheses *)
| Ahead (r : regex)               (* (?=r) *)
| Bol                             (* ^ *)
| Eol                             (* $ *)
| Wordb.                          (* \b *)

(** A position in the subject: the character before it, the text after it,
    and the groups captured on the way. *)
Record cursor := Cur {
  prev : option ascii;
  rest : str;
  caps : list (nat * str)
}.

(** Does the atom accept [x]?  [ic] is [re.IGNORECASE]. *)
Definition atom_ok (ic : bool) (a : atom) (x : ascii) : bool :=
  match a with
  | Lit c => if ic then Ascii.eqb (lower x) (lower c) else Ascii.eqb x c
  | OneOf p => if ic then p x || p (lower x) || p (upper x) else p x
  end.

(** Length of the longest prefix of accepted characters. *)
Fixpoint run (ok : ascii -> bool) (s : str) : nat :=
  match s with
  | x :: s' => if ok x then S (run ok s') else 0
  | [] => 0
  end.

(** The numbers of repetitions a quantifier tries, in the order it tries
    them: a greedy one starts from the most, a lazy one from the least. *)
Definition counts (greedy : bool) (lo : nat) (hi : option nat) (avail : nat)
  : list nat :=
  let most := match hi with Some h => Nat.min h avail | None => avail end in
  if most <? lo then []
  else
    let up := seq lo (S most - lo) in
    if greedy then rev up else up.

Fixpoint skip (k : nat) (p : option ascii) (s : str) : option ascii * str :=
  match k, s with
  | S k', x :: s' => skip k' (Some x) s'
  | _, _ => (p, s)
  end.

Definition forward (k : nat) (c : cursor) : cursor :=
  let (p, s) := skip k (prev c) (rest c) in Cur p s (caps c).

(** The text between a position [s] and a later position [c']. *)
Definition taken (s : str) (c' : cursor) : str :=
  firstn (length s - length (rest c')) s.

Definition wordp (o : option ascii) : bool :=
  match o with
  | Some x => isword x
  | None => false
  end.

(** All the ways [r] matches at [c], in the order in which the backtracking
    matcher of [re] finds them; what [re] returns is the first. *)
Fixpoint rmatch (ic : bool) (r : regex) (c : cursor) : list cursor :=
  match r with
  | Eps => [c]
  | Chr a =>
      match rest c with
      | x :: s => if atom_ok ic a x then [Cur (Some x) s (caps c)] else []
      | [] => []
      end
  | Seq r1 r2 => flat_map (rmatch ic r2) (rmatch ic r1 c)
  | Alt r1 r2 => rmatch ic r1 c ++ rmatch ic r2 c
  | Rep g lo hi a =>
      map (fun k => forward k c) (counts g lo hi (run (atom_ok ic a) (rest c)))
  | Group n r1 =>
      map (fun c' => Cur (prev c') (rest c') ((n, taken (rest c) c') :: caps c'))
          (rmatch ic r1 c)
  | Ahead r1 =>
      match rmatch ic r1 c with
      | [] => []
      | c' :: _ => [Cur (prev c) (rest c) (caps c')]
      end
  | Bol => match prev c with None => [c] | Some _ => [] end
  | Eol =>
      match rest c with
      | [] => [c]
      | [x] => if Ascii.eqb x "010" then [c] else []
      | _ => []
      end
  | Wordb =>
      if xorb (wordp (prev c)) (wordp (hd_error (rest c))) then [c] else []
  end.

(** A match object: group 0 and the numbered groups. *)
Record match_obj := Match {
  whole : str;
  groups : list (nat * str)
}.

Definition match_of (s : str) (c' : cursor) : match_obj :=
  Match (taken s c') (caps c').

Fixpoint lookup (n : nat) (l : list (nat * str)) : option str :=
  match l with
  | [] => None
  | (m, v) :: l' => if m =? n then Some v else lookup n l'
  end.

(** [m.group(n)] for a group of the pattern, followed by a string method: a
    group that took no part in the match is [None], on which the method
    raises. *)
Definition group (m : match_obj) (n : nat) : result str :=
  match n with
  | 0 => Ok (whole m)
  | _ => match lookup n (groups m) with
         | Some v => Ok v
         | None => Raise AttributeError
         end
  end.

(** [re.match(r, s)] *)
Definition re_match (ic : bool) (r : regex) (s : str) : option match_obj :=
  match rmatch ic r (Cur None s []) with
  | c' :: _ => Some (match_of s c')
  | [] => None
  end.

Fixpoint search_from (ic : bool) (r : regex) (p : option ascii) (s : str)
  : option match_obj :=
  match rmatch ic r (Cur p s []) with
  | c' :: _ => Some (match_of s c')
  | [] =>
      match s with
      | x :: s' => search_from ic r (Some x) s'
      | [] => None
      end
  end.

(** [re.search(r, s)] *)
Definition re_search (ic : bool) (r : regex) (s : str) : option match_obj :=
  search_from ic r None s.

(** *** Iterated search

    [findall], [sub] and [split] share one loop (Python 3.7 and later, where
    [split] also cuts at empty matches): search from where the last match
    ended; after an empty match the next one may start at the same place only
    if it is not empty.  [at_pos] gives the matches the loop
    reports that start at one position, and the number of characters they
    take. *)

Definition nonempty_at (s : str) (c' : cursor) : bool :=
  negb (length (rest c') =? length s).

Definition at_pos (ic : bool) (r : regex) (p : option ascii) (s : str)
  : list match_obj * nat :=
  let here := rmatch ic r (Cur p s []) in
  match here with
  | [] => ([], 0)
  | c1 :: _ =>
      match taken s c1 with
      | [] =>
          match filter (nonempty_at s) here with
          | [] => ([match_of s c1], 0)
          | c2 :: _ => ([match_of s c1; match_of s c2], length (taken s c2))
          end
      | w => ([match_of s c1], length w)
      end
  end.

(** The subject cut at its matches: a piece of unmatched text, a match, a
    piece, ..., and the last piece. *)
Inductive piece :=
| Text (t : str)
| Hit (m : match_obj).

Fixpoint hits_between (ms : list match_obj) : list piece :=
  match ms with
  | [] => []
  | [m] => [Hit m]
  | m :: ms' => Hit m :: Text [] :: hits_between ms'
  end.

(** [inside] counts the characters still to pass that belong to the match
    just reported; [g] is the unmatched text gathered since, reversed. *)
Fixpoint scan (ic : bool) (r : regex) (inside : nat) (g : str)
  (p : option ascii) (s : str) : list piece :=
  match inside with
  | S k =>
      match s with
      | x :: s' => scan ic r k g (Some x) s'
      | [] => [Text (rev g)]
      end
  | O =>
      match at_pos ic r p s with
      | ([], _) =>
          match s with
          | x :: s' => scan ic r 0 (x :: g) (Some x) s'
          | [] => [Text (rev g)]
          end
      | (ms, n) =>
          Text (rev g) :: hits_between ms ++
          match s with
          | x :: s' =>
              match n with
              | O => scan ic r 0 [x] (Some x) s'
              | S k => scan ic r k [] (Some x) s'
              end
          | [] => [Text []]
          end
      end
  end.

Definition pieces (ic : bool) (r : regex) (s : str) : list piece :=
  scan ic r 0 [] None s.

(** [re.findall(r, s)] for a pattern without groups *)
Definition found (q : piece) : list str :=
  match q with
  | Hit m => [whole m]
  | Text _ => []
  end.

Definition re_findall (ic : bool) (r : regex) (s : str) : list str :=
  flat_map found (pieces ic r s).

(** A replacement template: text and group references [\n]. *)
Inductive repl_item :=
| RText (t : str)
| RGroup (n : nat).

Definition expand (tpl : list repl_item) (m : match_obj) : str :=
  flat_map (fun i => match i with
                     | RText t => t
                     | RGroup n => match lookup n (groups m) with
                                   | Some v => v
                                   | None => []
                                   end
                     end) tpl.

Definition render (tpl : list repl_item) (q : piece) : str :=
  match q with
  | Hit m => expand tpl m
  | Text t => t
  end.

(** [re.sub(r, tpl, s)] *)
Definition re_sub (ic : bool) (r : regex) (tpl : list repl_item) (s : str)
  : str :=
  flat_map (render tpl) (pieces ic r s).

(** [re.split(r, s)] for a pattern without groups *)
Definition unmatched (q : piece) : list str :=
  match q with
  | Hit _ => []
  | Text t => [t]
  end.

Definition re_split (ic : bool) (r : regex) (s : str) : list str :=
  flat_map unmatched (pieces ic r s).

(** *** Writing patterns *)

Definition lits (s : string) : regex :=
  fold_right (fun c r => Seq (Chr (Lit c)) r) Eps (py s).

Fixpoint seqs (l : list regex) : regex :=
  match l with
  | [] => Eps
  | r :: l' => Seq r (seqs l')
  end.

Fixpoint alts (r : regex) (l : list regex) : regex :=
  match l with
  | [] => r
  | r' :: l' => Alt r (alts r' l')
  end.

Definition chars (s : string) : ascii -> bool := fun c => mem c (py s).

Definition dot : atom := OneOf (fun c => negb (Ascii.eqb c "010")).
Definition ws : atom := OneOf isspace.
Definition digit : atom := OneOf isdecimal.
Definition wordc : atom := OneOf isword.

Definition star (a : atom) : regex := Rep true 0 None a.
Definition plus (a : atom) : regex := Rep true 1 None a.
Definition opt (a : atom) : regex := Rep true 0 (Some 1) a.
Definition lazy_star (a : atom) : regex := Rep false 0 None a.
Definition times (lo hi : nat) (a : atom) : regex := Rep true lo (Some hi) a.

(** *** What a match is

    [matches ic r c c'] says that [r] can take the matcher from [c] to [c'].
    It is the reading of a pattern that [rmatch] enumerates; the lemmas
    [rmatch_sound] and [rmatch_complete] relate the two. *)

(** The character before the position reached after reading [w]. *)
Definition lastc (p : option ascii) (w : str) : option ascii :=
  fold_left (fun _ x => Some x) w p.

Definition within (hi : option nat) (n : nat) : Prop :=
  match hi with
  | Some h => n <= h
  | None => True
  end.

Fixpoint matches (ic : bool) (r : regex) (c c' : cursor) : Prop :=
  match r with
  | Eps => c' = c
  | Chr a =>
      exists x s, rest c = x :: s /\ atom_ok ic a x = true
                  /\ c' = Cur (Some x) s (caps c)
  | Seq r1 r2 => exists cm, matches ic r1 c cm /\ matches ic r2 cm c'
  | Alt r1 r2 => matches ic r1 c c' \/ matches ic r2 c c'
  | Rep _ lo hi a =>
      exists w s, rest c = w ++ s
                  /\ Forall (fun x => atom_ok ic a x = true) w
                  /\ lo <= length w /\ within hi (length w)
                  /\ c' = Cur (lastc (prev c) w) s (caps c)
  | Group n r1 =>
      exists cm, matches ic r1 c cm
                 /\ c' = Cur (prev cm) (rest cm)
                             ((n, taken (rest c) cm) :: caps cm)
  | Ahead r1 =>
      exists cm, matches ic r1 c cm /\ c' = Cur (prev c) (rest c) (caps cm)
  | Bol => prev c = None /\ c' = c
  | Eol => (rest c = [] \/ rest c = ["010"%char]) /\ c' = c
  | Wordb =>
      xorb (wordp (prev c)) (wordp (hd_error (rest c))) = true /\ c' = c
  end.

(** The texts a pattern can take, whatever stands around them. *)
Fixpoint spells (ic : bool) (r : regex) (w : str) : Prop :=
  match r with
  | Eps | Bol | Eol | Wordb | Ahead _ => w = []
  | Chr a => exists x, w = [x] /\ atom_ok ic a x = true
  | Seq r1 r2 =>
      exists w1 w2, w = w1 ++ w2 /\ spells ic r1 w1 /\ spells ic r2 w2
  | Alt r1 r2 => spells ic r1 w \/ spells ic r2 w
  | Rep _ lo hi a =>
      Forall (fun x => atom_ok ic a x = true) w
      /\ lo <= length w /\ within hi (length w)
  | Group _ r1 => spells ic r1 w
  end.

(** A lower bound on the length of the texts a pattern takes. *)
Fixpoint min_len (r : regex) : nat :=
  match r with
  | Chr _ => 1
  | Seq r1 r2 => min_len r1 + min_len r2
  | Alt r1 r2 => Nat.min (min_len r1) (min_len r2)
  | Rep _ lo _ _ => lo
  | Group _ r1 => min_len r1
  | _ => 0
  end.

(** Group [n] takes part in every match of the pattern. *)
Fixpoint has_group (n : nat) (r : regex) : bool :=
  match r with
  | Seq r1 r2 => has_group n r1 || has_group n r2
  | Alt r1 r2 => has_group n r1 && has_group n r2
  | Group m r1 => (m =? n) || has_group n r1
  | Ahead r1 => has_group n r1
  | _ => false
  end.

(** Patterns without parentheses that capture. *)
Fixpoint no_groups (r : regex) : bool :=
  match r with
  | Seq r1 r2 | Alt r1 r2 => no_groups r1 && no_groups r2
  | Group _ _ => false
  | Ahead r1 => no_groups r1
  | _ => true
  end.

(** Patterns whose lookaheads capture nothing, as all those of the program. *)
Fixpoint plain (r : regex) : bool :=
  match r with
  | Seq r1 r2 | Alt r1 r2 => plain r1 && plain r2
  | Group _ r1 => plain r1
  | Ahead r1 => no_groups r1
  | _ => true
  end.

End Py.

Module Main.
Import Py.

Local Open Scope string_scope.
Local Open Scope list_scope.
Local Open Scope nat_scope.

(** ** The patterns of [main.py] *)

Definition NA : str := py "NA".

(** The nine labels, in the order in which every lookahead of the program
    lists them. *)
Definition labels : list string :=
  ["Location:"; "Address:"; "City/ Town:"; "County:"; "Country:";
   "Website:"; "Phone:"; "Email:"; "Fax:"].

(** [(?=l1|l2|...|$)] *)
Definition before (ls : list string) : regex :=
  Ahead (fold_right (fun l r => Alt (lits l) r) Eol ls).

(** [^(.*?)(?=Location:|Address:|City/ Town:|County:|Country:|Website:|Phone:|Email:|Fax:|$)] *)
Definition name_re : regex :=
  seqs [Bol; Group 1 (lazy_star dot); before labels].

Definition others (label : string) : list string :=
  filter (fun l => negb (String.eqb l label)) labels.

(** [Label:\s*(.*?)(?=...|$)], the lookahead listing the other eight labels *)
Definition field_re (label : string) : regex :=
  seqs [lits label; star ws; Group 1 (lazy_star dot); before (others label)].

(** The dictionary [fields], in its insertion order. *)
Definition fields : list (string * regex) :=
  [("Location", field_re "Location:");
   ("Address", field_re "Address:");
   ("City/ Town", field_re "City/ Town:");
   ("County", field_re "County:");
   ("Country", field_re "Country:");
   ("Website", field_re "Website:");
   ("Phone", field_re "Phone:");
   ("Email", field_re "Email:");
   ("Fax", field_re "Fax:")].

(** [\s+] *)
Definition spaces_re : regex := plus ws.

(** [(?:\b\d{3}[-.]?\d{3}[-.]?\d{3,4}\b|\b0\d{2,3}[- ]?\d{3,4}[- ]?\d{3,4}\b)] *)
Definition phone_re : regex :=
  Alt (seqs [Wordb; times 3 3 digit; opt (OneOf (chars "-."));
             times 3 3 digit; opt (OneOf (chars "-.")); times 3 4 digit; Wordb])
      (seqs [Wordb; Chr (Lit "0"); times 2 3 digit; opt (OneOf (chars "- "));
             times 3 4 digit; opt (OneOf (chars "- ")); times 3 4 digit; Wordb]).

(** [[^\d]] *)
Definition nondigit_re : regex := Chr (OneOf (fun c => negb (isdecimal c))).

(** [\b[A-Za-z0-9._%+-]+@[A-Za-z0-9.-]+\.[A-Z|a-z]{2,}\b] *)
Definition email_re : regex :=
  seqs [Wordb;
        plus (OneOf (fun c => isupper c || islower c || between 48 57 c
                              || chars "._%+-" c));
        Chr (Lit "@");
        plus (OneOf (fun c => isupper c || islower c || between 48 57 c
                              || chars ".-" c));
        Chr (Lit ".");
        Rep true 2 None (OneOf (fun c => isupper c || chars "|" c || islower c));
        Wordb].

(** [(?:https?://|www\.)[^\s,]+] *)
Definition website_re : regex :=
  seqs [Alt (seqs [lits "http"; opt (Lit "s"); lits "://"]) (lits "www.");
        plus (OneOf (fun c => negb (isspace c || chars "," c)))].

(** [(\w)-\s*\n\s*(\w)] *)
Definition hyphen_re : regex :=
  seqs [Group 1 (Chr wordc); Chr (Lit "-"); star ws; Chr (Lit "010");
        star ws; Group 2 (Chr wordc)].

(** [(?=\b[A-Z][a-zA-Z\s,&\.\'-]+(?:School|Academy|Sch\.|High|Centre|Foundation)\b)] *)
Definition anchor_body : regex :=
  seqs [Wordb; Chr (OneOf (between 65 90));
        plus (OneOf (fun c => islower c || isupper c || isspace c
                              || chars ",&.'-" c));
        alts (lits "School")
             [lits "Academy"; lits "Sch."; lits "High"; lits "Centre";
              lits "Foundation"];
        Wordb].

Definition anchor_re : regex := Ahead anchor_body.

(** ** The functions of [main.py] *)

Section Extractor.

Variable hash : set_impl.

(** [', '.join(set(l)) if l else 'NA'] *)
Definition joined (l : list str) : str :=
  match l with
  | [] => NA
  | _ => join (py ", ") (elements hash l)
  end.

(** The body of [for phone in phones], up to the value appended. *)
Definition clean_phone (phone : str) : result str :=
  let cleaned := re_sub false nondigit_re [] phone in
  nine <- (if length cleaned =? 9
           then c0 <- index cleaned 0 ;; Ok (mem c0 (py "23456789"))
           else Ok false) ;;
  if nine then Ok ("0"%char :: cleaned)
  else if (length cleaned =? 12) && startswith cleaned (py "254")
       then Ok ("0"%char :: skipn 3 cleaned)
       else Ok cleaned.

(** What a non-empty captured value of [field] is stored as. *)
Definition cleaned_value (field : string) (value : str) : result str :=
  if String.eqb field "Phone" then
    let phones := re_findall false phone_re value in
    cleaned_phones <- collect phones clean_phone ;;
    Ok (joined cleaned_phones)
  else if String.eqb field "Email" then
    let emails := re_findall true email_re value in
    Ok (joined emails)
  else if String.eqb field "Website" then
    let websites := re_findall false website_re value in
    Ok (joined websites)
  else Ok value.

(** The body of [for field, pattern in fields.items()]. *)
Definition extract_field (text_block : str) (data : dict)
  (item : string * regex) : result dict :=
  let (field, pattern) := item in
  match re_search true pattern text_block with
  | Some m =>
      g <- group m 1 ;;
      let value := strip g in
      match value with
      | [] => Ok data
      | _ => v <- cleaned_value field value ;; Ok (dict_set field v data)
      end
  | None => Ok data
  end.

Definition normalize (text_block : str) : str :=
  strip (re_sub false spaces_re [RText (py " ")] text_block).

Definition extract_school_data (text_block : str) : result dict :=
  let data : dict :=
    [("School Name", NA); ("Location", NA); ("Address", NA);
     ("City/ Town", NA); ("County", NA); ("Country", NA); ("Website", NA);
     ("Phone", NA); ("Email", NA); ("Fax", NA)] in
  let text_block := normalize text_block in
  let name_match := re_match false name_re text_block in
  data <- match name_match with
          | Some m => g <- group m 1 ;; Ok (dict_set "School Name" (strip g) data)
          | None => Ok data
          end ;;
  for_each fields (extract_field text_block) data.

(** The two substitutions under [# Pre-process text]. *)
Definition dehyphenate (full_text : str) : str :=
  re_sub false hyphen_re [RGroup 1; RGroup 2] full_text.

Definition normalize_whitespace (full_text : str) : str :=
  re_sub false spaces_re [RText (py " ")] full_text.

(** [re.split(...)[1:]] *)
Definition school_blocks (full_text : str) : list str :=
  tl (re_split false anchor_re full_text).

(** The [try] block of [process_pdf], from the text of the pages on. *)
Definition process_text (full_text : str) : result (list dict) :=
  let full_text := dehyphenate full_text in
  let full_text := normalize_whitespace full_text in
  let school_blocks := school_blocks full_text in
  collect (range 0 (length school_blocks) 2)
    (fun i =>
       block <- (if i + 1 <? length school_blocks
                 then b1 <- index school_blocks i ;;
                      b2 <- index school_blocks (i + 1) ;;
                      Ok (b1 ++ b2)
                 else index school_blocks i) ;;
       extract_school_data block).

(** [process_pdf], given what the pages' [extract_text()] returned: an
    exception anywhere in the block gives the empty list. *)
Definition process_pdf (pages : list str) : list dict :=
  match process_text (join ["010"%char] pages) with
  | Ok schools => schools
  | Raise _ => []
  end.

End Extractor.

(** The column list of [save_to_excel]. *)
Definition columns : list string :=
  ["School Name"; "Location"; "Address"; "City/ Town"; "County"; "Country";
   "Website"; "Phone"; "Email"; "Fax"].

(** [df.reindex(columns=columns, fill_value='NA')], on one row: the columns
    of the list in its order, a column that the row lacks filled with "NA". *)
Definition reindex (row : dict) : dict :=
  map (fun c => (c, match dict_get c row with
                    | Ok v => v
                    | Raise _ => NA
                    end)) columns.

End Main.


(** * Reference functions

    Plain recursive functions that say what a step of the program computes;
    the theorems relate the program to them. *)

Module Spec.
Import Py.

(** Every run of whitespace becomes one space; [in_run] tells that the
    character before was whitespace. *)
Fixpoint squeeze (in_run : bool) (s : str) : str :=
  match s with
  | [] => []
  | x :: s' =>
      if isspace x
      then if in_run then squeeze true s' else " "%char :: squeeze true s'
      else x :: squeeze false s'
  end.

(** What one round of the loop over [fields] leaves under its key: the value
    [old] that was there when the pattern finds nothing or captures only
    whitespace, the cleaned capture otherwise. *)
Definition field_outcome (hash : set_impl) (text_block : str)
  (item : string * regex) (old new : str) : Prop :=
  match re_search true (snd item) text_block with
  | None => new = old
  | Some m =>
      exists g, group m 1 = Ok g /\
        match strip g with
        | [] => new = old
        | value => Main.cleaned_value hash (fst item) value = Ok new
        end
  end.

(** A labelled field has no extracted value: its pattern finds nothing, or
    captures only whitespace, or captures a text in which the cleaning of a
    telephone, e-mail or website field finds no token. *)
Definition nothing_extracted (text_block : str) (item : string * regex) : Prop :=
  match re_search true (snd item) text_block with
  | None => True
  | Some m =>
      exists g, group m 1 = Ok g /\
        (strip g = []
         \/ (fst item = "Phone"%string
             /\ re_findall false Main.phone_re (strip g) = [])
         \/ (fst item = "Email"%string
             /\ re_findall true Main.email_re (strip g) = [])
         \/ (fst item = "Website"%string
             /\ re_findall false Main.website_re (strip g) = []))
  end.

(** The text of the end-to-end scenario. *)
Definition two_schools : str :=
  py "Alpha Boys High School Location: Kasarani Phone: 0712345678 Beta Girls Academy Phone: 712-345-678".

Definition record (name location address town county country website phone
                   email fax : string) : dict :=
  [("School Name", py name); ("Location", py location);
   ("Address", py address); ("City/ Town", py town); ("County", py county);
   ("Country", py country); ("Website", py website); ("Phone", py phone);
   ("Email", py email); ("Fax", py fax)]%string.

(** The text [s] starts with [l], compared as [re] compares literals. *)
Fixpoint starts (ic : bool) (s l : str) {struct l} : bool :=
  match l, s with
  | [], _ => true
  | a :: l', b :: s' => atom_ok ic (Lit a) b && starts ic s' l'
  | _ :: _, [] => false
  end.

(** The text of a piece: an unmatched stretch, or what a match took. *)
Definition piece_text (q : piece) : str :=
  match q with
  | Text t => t
  | Hit m => whole m
  end.

(** The loop of [process_pdf] over the blocks, written on the list itself:
    two neighbouring blocks make one, a last odd block stays alone. *)
Fixpoint pair_up (blocks : list str) : list str :=
  match blocks with
  | b1 :: b2 :: rest => (b1 ++ b2) :: pair_up rest
  | _ => blocks
  end.

(** The label scanner that the patterns of the extractor amount to. *)

(** One of the labels starts here, or the text ends. *)
Definition at_boundary (ic : bool) (ls : list string) (s : str) : bool :=
  match s with
  | [] => true
  | _ => existsb (fun l => starts ic s (py l)) ls
  end.

(** The text before the first place where one of the labels starts. *)
Fixpoint until (ic : bool) (ls : list string) (s : str) : str :=
  match s with
  | [] => []
  | x :: s' => if at_boundary ic ls s then [] else x :: until ic ls s'
  end.

(** The text after the first occurrence of the label, compared without
    regard to case; [None] when there is none. *)
Fixpoint after_label (label : str) (s : str) : option str :=
  match s with
  | [] => if starts true [] label then Some [] else None
  | _ :: s' =>
      if starts true s label then Some (skipn (length label) s)
      else after_label label s'
  end.

(** What the scanner leaves under the key of a field. *)
Definition scanned (hash : set_impl) (text_block : str) (field : string)
  (new : str) : Prop :=
  match after_label (py (field ++ ":")) text_block with
  | None => new = Main.NA
  | Some v =>
      match strip (until true (Main.others (field ++ ":")) (lstrip v)) with
      | [] => new = Main.NA
      | value => Main.cleaned_value hash field value = Ok new
      end
  end.

(** One round of the loop of [process_pdf]: the block for index [i], handed
    to [f]. *)
Definition by_index (f : str -> result dict) (blocks : list str) (i : nat)
  : result dict :=
  block <- (if i + 1 <? length blocks
            then b1 <- index blocks i ;;
                 b2 <- index blocks (i + 1) ;;
                 Ok (b1 ++ b2)
            else index blocks i) ;;
  f block.

End Spec.

(** * Facts about the Python layer *)

Module PyFacts.
Import Py.

(** ** Characters *)

Lemma space_not_word (x : ascii) : isspace x = true -> isword x = false.
Proof.
  destruct x as [[] [] [] [] [] [] [] []]; vm_compute; congruence.
Qed.

(** ** Moving along the subject *)

Lemma lastc_app (p : option ascii) (u v : str) :
  lastc p (u ++ v) = lastc (lastc p u) v.
Proof. unfold lastc. apply fold_left_app. Qed.

Lemma skip_app (w s : str) (p : option ascii) :
  skip (length w) p (w ++ s) = (lastc p w, s).
Proof.
  revert p. induction w as [|x w IH]; intro p; simpl.
  - destruct s; reflexivity.
  - apply IH.
Qed.

Lemma run_le_length (ok : ascii -> bool) (s : str) : run ok s <= length s.
Proof.
  induction s as [|x s IH]; simpl; [lia|]. destruct (ok x); simpl; lia.
Qed.

Lemma run_prefix (ok : ascii -> bool) (s : str) (k : nat) :
  k <= run ok s ->
  exists w t, s = w ++ t /\ length w = k /\ Forall (fun x => ok x = true) w.
Proof.
  revert k. induction s as [|x s IH]; intros k Hk; simpl in Hk.
  - exists [], []. assert (k = 0) by lia. subst. auto.
  - destruct k as [|k].
    + exists [], (x :: s). auto.
    + destruct (ok x) eqn:E; [|lia].
      destruct (IH k) as (w & t & -> & Hl & Hf); [lia|].
      exists (x :: w), t. simpl. auto.
Qed.

Lemma run_app_ge (ok : ascii -> bool) (w t : str) :
  Forall (fun x => ok x = true) w -> length w <= run ok (w ++ t).
Proof.
  induction 1 as [|x w Hx _ IH]; simpl; [lia|]. rewrite Hx. lia.
Qed.

Lemma in_counts (g : bool) (lo : nat) (hi : option nat) (avail k : nat) :
  In k (counts g lo hi avail) <-> lo <= k /\ k <= avail /\ within hi k.
Proof.
  unfold counts.
  set (most := match hi with Some h => Nat.min h avail | None => avail end).
  assert (Hm : forall k, k <= most <-> k <= avail /\ within hi k).
  { intro j. unfold most, within. destruct hi; lia. }
  destruct (most <? lo) eqn:E.
  - apply Nat.ltb_lt in E. simpl. split; [tauto|]. intros (H1 & H2 & H3).
    assert (k <= most) by (apply Hm; auto). lia.
  - apply Nat.ltb_ge in E.
    assert (In k (seq lo (S most - lo)) <-> lo <= k /\ k <= most).
    { rewrite in_seq. lia. }
    rewrite <- (Hm k) at 1.
    destruct g; [rewrite <- in_rev|]; tauto.
Qed.

(** ** The matcher enumerates the matches *)

Lemma rmatch_sound (ic : bool) (r : regex) :
  forall c c', In c' (rmatch ic r c) -> matches ic r c c'.
Proof.
  induction r as [|a|r1 IH1 r2 IH2|r1 IH1 r2 IH2|g lo hi a|n r1 IH1|r1 IH1| | |];
    intros c c' H; simpl in *.
  - destruct H as [H|[]]. auto.
  - destruct (rest c) as [|x s] eqn:E; [destruct H|].
    destruct (atom_ok ic a x) eqn:Ea; [|destruct H].
    destruct H as [H|[]]. exists x, s. auto.
  - apply in_flat_map in H. destruct H as (cm & H1 & H2). exists cm. auto.
  - apply in_app_or in H. destruct H; auto.
  - apply in_map_iff in H. destruct H as (k & Hk & Hin).
    apply in_counts in Hin. destruct Hin as (Hlo & Hav & Hhi).
    destruct (run_prefix _ _ Hav) as (w & t & Hs & Hl & Hf).
    exists w, t. subst k. repeat split; auto.
    rewrite <- Hk. unfold forward. rewrite Hs, skip_app. reflexivity.
  - apply in_map_iff in H. destruct H as (cm & Hk & Hin). exists cm. auto.
  - destruct (rmatch ic r1 c) as [|cm l] eqn:E; [destruct H|].
    destruct H as [H|[]]. exists cm. split; auto. apply IH1. rewrite E. left. auto.
  - destruct (prev c); [destruct H|]. destruct H as [H|[]]. auto.
  - destruct (rest c) as [|x [|y s]]; try (destruct H as [H|[]]; auto; fail).
    + destruct (Ascii.eqb x "010") eqn:E; [|destruct H].
      apply Ascii.eqb_eq in E. subst x. destruct H as [H|[]]. auto.
    + destruct H.
  - destruct (xorb _ _) eqn:E; [|destruct H]. destruct H as [H|[]]. auto.
Qed.

Lemma no_groups_caps (ic : bool) (r : regex) :
  no_groups r = true ->
  forall c c', matches ic r c c' -> caps c' = caps c.
Proof.
  induction r as [|a|r1 IH1 r2 IH2|r1 IH1 r2 IH2|g lo hi a|n r1 IH1|r1 IH1| | |];
    intros Hn c c' H; simpl in *.
  - subst; reflexivity.
  - destruct H as (x & s & _ & _ & ->). reflexivity.
  - apply andb_prop in Hn. destruct Hn as [Hn1 Hn2], H as (cm & H1 & H2).
    rewrite (IH2 Hn2 _ _ H2). eauto.
  - apply andb_prop in Hn. destruct Hn as [Hn1 Hn2], H; eauto.
  - destruct H as (w & s & _ & _ & _ & _ & ->). reflexivity.
  - discriminate.
  - destruct H as (cm & H1 & ->). simpl. eauto.
  - destruct H as [_ ->]. reflexivity.
  - destruct H as [_ ->]. reflexivity.
  - destruct H as [_ ->]. reflexivity.
Qed.

Lemma rmatch_complete (ic : bool) (r : regex) :
  plain r = true ->
  forall c c', matches ic r c c' -> In c' (rmatch ic r c).
Proof.
  induction r as [|a|r1 IH1 r2 IH2|r1 IH1 r2 IH2|g lo hi a|n r1 IH1|r1 IH1| | |];
    intros Hp c c' H; simpl in *.
  - left. auto.
  - destruct H as (x & s & -> & -> & ->). left. reflexivity.
  - apply andb_prop in Hp. destruct Hp as [Hp1 Hp2], H as (cm & H1 & H2).
    apply in_flat_map. exists cm. auto.
  - apply andb_prop in Hp. destruct Hp as [Hp1 Hp2].
    apply in_or_app. destruct H; auto.
  - destruct H as (w & s & Hs & Hf & Hlo & Hhi & ->).
    apply in_map_iff. exists (length w). split.
    + unfold forward. rewrite Hs, skip_app. reflexivity.
    + apply in_counts. repeat split; auto. rewrite Hs. apply run_app_ge. auto.
  - destruct H as (cm & H1 & ->). apply in_map_iff. exists cm. auto.
  - destruct H as (cm & H1 & ->).
    assert (Hc : caps cm = caps c) by (eapply no_groups_caps; eauto).
    destruct (rmatch ic r1 c) as [|c1 l] eqn:E.
    + assert (Hs : forall r, no_groups r = true -> plain r = true).
      { clear. induction r; simpl; intro H; auto;
          try (apply andb_prop in H; destruct H; apply andb_true_intro; auto).
        discriminate. }
      specialize (IH1 (Hs _ Hp) _ _ H1). rewrite E in IH1. destruct IH1.
    + left. f_equal. rewrite Hc. eapply no_groups_caps; eauto.
      apply rmatch_sound. rewrite E. left. reflexivity.
  - destruct H as [-> ->]. destruct c; simpl in *. left. reflexivity.
  - destruct H as [[H|H] ->]; rewrite H; simpl; auto.
  - destruct H as [-> ->]. left. reflexivity.
Qed.

(** ** Where a match ends *)

Lemma matches_rest (ic : bool) (r : regex) :
  forall c c', matches ic r c c' ->
  exists w, rest c = w ++ rest c' /\ prev c' = lastc (prev c) w
            /\ spells ic r w.
Proof.
  induction r as [|a|r1 IH1 r2 IH2|r1 IH1 r2 IH2|g lo hi a|n r1 IH1|r1 IH1| | |];
    intros c c' H; simpl in H.
  - subst. exists []. simpl. auto.
  - destruct H as (x & s & E & Hx & ->). exists [x]. simpl. eauto.
  - destruct H as (cm & H1 & H2).
    destruct (IH1 _ _ H1) as (w1 & E1 & P1 & S1).
    destruct (IH2 _ _ H2) as (w2 & E2 & P2 & S2).
    exists (w1 ++ w2). rewrite <- app_assoc, <- E2, lastc_app, <- P1.
    simpl. eauto 7.
  - destruct H as [H|H]; [destruct (IH1 _ _ H) as (w & ? & ? & ?)
                         |destruct (IH2 _ _ H) as (w & ? & ? & ?)];
      exists w; simpl; auto.
  - destruct H as (w & s & E & ? & ? & ? & ->). exists w. simpl. auto.
  - destruct H as (cm & H1 & ->). simpl. auto.
  - destruct H as (cm & H1 & ->). exists []. simpl. auto.
  - destruct H as [_ ->]. exists []. simpl. auto.
  - destruct H as [_ ->]. exists []. simpl. auto.
  - destruct H as [_ ->]. exists []. simpl. auto.
Qed.

Lemma firstn_exact (w t : str) : firstn (length w) (w ++ t) = w.
Proof.
  induction w as [|x w IH]; simpl; [destruct t; reflexivity|]. now rewrite IH.
Qed.

Lemma taken_app (w : str) (c' : cursor) : taken (w ++ rest c') c' = w.
Proof.
  unfold taken. rewrite length_app, Nat.add_sub. apply firstn_exact.
Qed.

(** ** The search loop, one step at a time *)

Lemma scan_inside (ic : bool) (r : regex) (w s g : str) (p : option ascii) :
  scan ic r (length w) g p (w ++ s) = scan ic r 0 g (lastc p w) s.
Proof.
  revert p. induction w as [|x w IH]; intro p; [reflexivity|]. simpl. apply IH.
Qed.

Lemma scan_gap (ic : bool) (r : regex) (s : str) :
  forall k p, exists t q,
    forall g, scan ic r k g p s = Text (rev g ++ t) :: q.
Proof.
  induction s as [|x s IH]; intros k p.
  - destruct k as [|k]; simpl.
    + destruct (at_pos ic r p []) as [[|m ms] n].
      * exists [], []. intro g. now rewrite app_nil_r.
      * eexists [], _. intro g. rewrite app_nil_r. reflexivity.
    + exists [], []. intro g. now rewrite app_nil_r.
  - destruct k as [|k]; simpl.
    + destruct (at_pos ic r p (x :: s)) as [[|m ms] n].
      * destruct (IH 0 (Some x)) as (t & q & H). exists (x :: t), q.
        intro g. rewrite H. simpl. now rewrite <- app_assoc.
      * eexists [], _. intro g. rewrite app_nil_r. reflexivity.
    + destruct (IH k (Some x)) as (t & q & H). exists t, q. intro g. apply H.
Qed.

Lemma scan_miss (ic : bool) (r : regex) (g : str) (p : option ascii)
  (x : ascii) (s : str) :
  rmatch ic r (Cur p (x :: s) []) = [] ->
  scan ic r 0 g p (x :: s) = scan ic r 0 (x :: g) (Some x) s.
Proof.
  intro H. simpl. unfold at_pos. rewrite H. reflexivity.
Qed.

(** The first match takes the text [w], which is not empty. *)
Lemma scan_hit (ic : bool) (r : regex) (g : str) (p : option ascii)
  (x : ascii) (w s : str) (c1 : cursor) (l : list cursor) :
  rmatch ic r (Cur p (x :: w ++ s) []) = c1 :: l ->
  rest c1 = s ->
  scan ic r 0 g p (x :: w ++ s)
  = Text (rev g) :: Hit (Match (x :: w) (caps c1))
    :: scan ic r 0 [] (lastc (Some x) w) s.
Proof.
  intros H E. cbn [scan]. unfold at_pos. rewrite H.
  assert (T : taken (x :: w ++ s) c1 = x :: w).
  { rewrite <- E. apply (taken_app (x :: w)). }
  unfold match_of. rewrite T. cbn [length hits_between app].
  rewrite scan_inside. reflexivity.
Qed.

(** Rendering the pieces: the gap gathered so far comes out first. *)
Lemma flat_map_scan_gap {B : Type} (f : piece -> list B)
  (ic : bool) (r : regex) (k : nat) (g : str) (p : option ascii) (s : str) :
  (forall u v, f (Text (u ++ v)) = f (Text u) ++ f (Text v)) ->
  flat_map f (scan ic r k g p s)
  = f (Text (rev g)) ++ flat_map f (scan ic r k [] p s).
Proof.
  intros Hf. destruct (scan_gap ic r s k p) as (t & q & H).
  rewrite (H g), (H []). simpl. rewrite Hf. now rewrite app_assoc.
Qed.

(** Every match the loop reports is one the matcher found somewhere. *)
Lemma scan_hits (ic : bool) (r : regex) (m : match_obj) (s : str) :
  forall k g p, In (Hit m) (scan ic r k g p s) ->
  exists p0 s0 c', In c' (rmatch ic r (Cur p0 s0 [])) /\ m = match_of s0 c'.
Proof.
  assert (A : forall p s ms n, at_pos ic r p s = (ms, n) -> In m ms ->
              exists c', In c' (rmatch ic r (Cur p s [])) /\ m = match_of s c').
  { intros p s0 ms n H Hin. unfold at_pos in H.
    destruct (rmatch ic r (Cur p s0 [])) as [|c1 l] eqn:E.
    - inversion H; subst. destruct Hin.
    - destruct (taken s0 c1) eqn:T.
      + destruct (filter (nonempty_at s0) (c1 :: l)) as [|c2 l2] eqn:F;
          inversion H; subst; clear H.
        * destruct Hin as [<-|[]]. exists c1. split; [left|]; auto.
        * destruct Hin as [<-|[<-|[]]].
          -- exists c1. split; [left|]; auto.
          -- exists c2. split; auto.
             assert (In c2 (filter (nonempty_at s0) (c1 :: l)))
               by (rewrite F; left; auto).
             apply filter_In in H. tauto.
      + inversion H; subst. destruct Hin as [<-|[]].
        exists c1. split; [left|]; auto. }
  assert (B : forall ms, In (Hit m) (hits_between ms) -> In m ms).
  { induction ms as [|a [|b ms] IH]; simpl; intro H.
    - destruct H.
    - destruct H as [H|[]]. inversion H. auto.
    - destruct H as [H|[H|H]]; [inversion H; auto|discriminate|].
      right. apply IH. exact H. }
  induction s as [|x s IH]; intros k g p H.
  - destruct k; simpl in H.
    + destruct (at_pos ic r p []) as [[|m0 ms] n] eqn:E.
      * destruct H as [H|[]]. discriminate.
      * destruct H as [H|H]; [discriminate|].
        apply in_app_or in H. destruct H as [H|[H|[]]]; [|discriminate].
        destruct (A _ _ _ _ E (B _ H)) as (c' & H1 & H2). eauto.
    + destruct H as [H|[]]. discriminate.
  - destruct k; simpl in H.
    + destruct (at_pos ic r p (x :: s)) as [[|m0 ms] n] eqn:E.
      * eauto.
      * destruct H as [H|H]; [discriminate|].
        apply in_app_or in H. destruct H as [H|H].
        -- destruct (A _ _ _ _ E (B _ H)) as (c' & H1 & H2). eauto.
        -- destruct n; eauto.
    + eauto.
Qed.

(** ** Substitution, one step at a time *)

Lemma render_app (tpl : list repl_item) (u v : str) :
  render tpl (Text (u ++ v)) = render tpl (Text u) ++ render tpl (Text v).
Proof. reflexivity. Qed.

Lemma sub_miss (ic : bool) (r : regex) (tpl : list repl_item)
  (p : option ascii) (x : ascii) (s : str) :
  rmatch ic r (Cur p (x :: s) []) = [] ->
  flat_map (render tpl) (scan ic r 0 [] p (x :: s))
  = x :: flat_map (render tpl) (scan ic r 0 [] (Some x) s).
Proof.
  intro H. rewrite (@scan_miss ic r [] p x s H).
  rewrite flat_map_scan_gap by apply render_app. reflexivity.
Qed.

Lemma sub_hit (ic : bool) (r : regex) (tpl : list repl_item)
  (p : option ascii) (x : ascii) (w s : str) (c1 : cursor) (l : list cursor) :
  rmatch ic r (Cur p (x :: w ++ s) []) = c1 :: l ->
  rest c1 = s ->
  flat_map (render tpl) (scan ic r 0 [] p (x :: w ++ s))
  = expand tpl (Match (x :: w) (caps c1))
    ++ flat_map (render tpl) (scan ic r 0 [] (lastc (Some x) w) s).
Proof.
  intros H E. rewrite (@scan_hit ic r [] p x w s c1 l H E). reflexivity.
Qed.

(** ** Runs of accepted characters *)

Lemma counts_greedy_first (lo avail : nat) :
  lo <= avail ->
  exists l, counts true lo None avail = avail :: l.
Proof.
  intro H. unfold counts.
  destruct (avail <? lo) eqn:E; [apply Nat.ltb_lt in E; lia|].
  replace (S avail - lo) with (S (avail - lo)) by lia.
  rewrite seq_S, rev_app_distr. simpl.
  replace (lo + (avail - lo)) with avail by lia. eauto.
Qed.

Lemma forward_run (p : option ascii) (s : str) (cs : list (nat * str)) (n : nat) :
  n <= length s ->
  forward n (Cur p s cs) = Cur (lastc p (firstn n s)) (skipn n s) cs.
Proof.
  intro H. unfold forward. simpl.
  rewrite <- (firstn_skipn n s) at 1.
  replace n with (length (firstn n s)) at 1 by (apply firstn_length_le; auto).
  rewrite skip_app. reflexivity.
Qed.

(** A greedy [a+] or [a*] alone takes the whole run first. *)
Lemma rmatch_greedy_first (ic : bool) (lo : nat) (a : atom) (c : cursor) :
  lo <= run (atom_ok ic a) (rest c) ->
  exists l,
    rmatch ic (Rep true lo None a) c
    = forward (run (atom_ok ic a) (rest c)) c :: l.
Proof.
  intro H. simpl. destruct (counts_greedy_first H) as (l & ->).
  simpl. eauto.
Qed.

Lemma rmatch_plus_none (ic : bool) (a : atom) (c : cursor) :
  run (atom_ok ic a) (rest c) = 0 -> rmatch ic (plus a) c = [].
Proof. intro H. simpl. rewrite H. reflexivity. Qed.

Lemma spells_min_len (ic : bool) (r : regex) :
  forall w, spells ic r w -> min_len r <= length w.
Proof.
  induction r as [|a|r1 IH1 r2 IH2|r1 IH1 r2 IH2|g lo hi a|n r1 IH1|r1 IH1| | |];
    intros w H; simpl in *; subst; simpl; auto.
  - destruct H as (x & -> & _). simpl. lia.
  - destruct H as (w1 & w2 & -> & H1 & H2). rewrite length_app.
    specialize (IH1 _ H1). specialize (IH2 _ H2). lia.
  - destruct H as [H|H]; [specialize (IH1 _ H)|specialize (IH2 _ H)]; lia.
  - tauto.
Qed.

(** Every string [re.findall] returns is a text the pattern spells. *)
Lemma findall_spells (ic : bool) (r : regex) (s w : str) :
  In w (re_findall ic r s) -> spells ic r w.
Proof.
  unfold re_findall, pieces. intro H. apply in_flat_map in H.
  destruct H as ([t|m] & Hq & Hw); [destruct Hw|].
  destruct Hw as [<-|[]].
  destruct (scan_hits _ _ _ _ _ _ _ Hq) as (p0 & s0 & c' & Hin & ->).
  apply rmatch_sound in Hin.
  destruct (matches_rest _ _ _ _ Hin) as (w & E & _ & Hs).
  simpl in E. simpl. rewrite E, taken_app. exact Hs.
Qed.

(** ** Groups *)

Lemma matches_caps_keep (ic : bool) (n : nat) (r : regex) :
  forall c c', matches ic r c c' ->
  lookup n (caps c) <> None -> lookup n (caps c') <> None.
Proof.
  induction r as [|a|r1 IH1 r2 IH2|r1 IH1 r2 IH2|g lo hi a|m r1 IH1|r1 IH1| | |];
    intros c c' H K; simpl in H.
  - now subst.
  - destruct H as (x & s & _ & _ & ->). exact K.
  - destruct H as (cm & H1 & H2). eauto.
  - destruct H; eauto.
  - destruct H as (w & s & _ & _ & _ & _ & ->). exact K.
  - destruct H as (cm & H1 & ->). simpl.
    destruct (m =? n); [discriminate|]. eauto.
  - destruct H as (cm & H1 & ->). simpl. eauto.
  - destruct H as [_ ->]. exact K.
  - destruct H as [_ ->]. exact K.
  - destruct H as [_ ->]. exact K.
Qed.

Lemma has_group_sound (ic : bool) (n : nat) (r : regex) :
  has_group n r = true ->
  forall c c', matches ic r c c' -> lookup n (caps c') <> None.
Proof.
  induction r as [|a|r1 IH1 r2 IH2|r1 IH1 r2 IH2|g lo hi a|m r1 IH1|r1 IH1| | |];
    intros Hg c c' H; simpl in Hg, H; try discriminate.
  - destruct H as (cm & H1 & H2).
    apply orb_prop in Hg. destruct Hg as [Hg|Hg].
    + eapply matches_caps_keep; eauto.
    + eauto.
  - apply andb_prop in Hg. destruct Hg. destruct H; eauto.
  - destruct H as (cm & H1 & ->). simpl.
    destruct (m =? n); [discriminate|]. simpl in Hg. eauto.
  - destruct H as (cm & H1 & ->). simpl. eauto.
Qed.

(** [m.group(n)] of a match of a pattern in which group [n] always takes
    part is a string. *)
Lemma group_of_search (ic : bool) (n : nat) (r : regex) (s : str) (m : match_obj) :
  has_group n r = true ->
  re_search ic r s = Some m ->
  exists g, group m n = Ok g.
Proof.
  intros Hg. unfold re_search. generalize (@None ascii).
  induction s as [|x s IH]; intros p H; simpl in H.
  - destruct (rmatch ic r (Cur p [] [])) as [|c' l] eqn:E; [discriminate|].
    inversion H; subst; clear H.
    assert (K : lookup n (caps c') <> None).
    { eapply has_group_sound; eauto. apply rmatch_sound. rewrite E. now left. }
    unfold group, match_of. simpl.
    destruct n; [eauto|]. destruct (lookup (S n) (caps c')); [eauto|tauto].
  - destruct (rmatch ic r (Cur p (x :: s) [])) as [|c' l] eqn:E; [eauto|].
    inversion H; subst; clear H.
    assert (K : lookup n (caps c') <> None).
    { eapply has_group_sound; eauto. apply rmatch_sound. rewrite E. now left. }
    unfold group, match_of. simpl.
    destruct n; [eauto|]. destruct (lookup (S n) (caps c')); [eauto|tauto].
Qed.

Lemma group_of_match (ic : bool) (n : nat) (r : regex) (s : str) (m : match_obj) :
  has_group n r = true ->
  re_match ic r s = Some m ->
  exists g, group m n = Ok g.
Proof.
  intros Hg H. unfold re_match in H.
  destruct (rmatch ic r (Cur None s [])) as [|c' l] eqn:E; [discriminate|].
  inversion H; subst; clear H.
  assert (K : lookup n (caps c') <> None).
  { eapply has_group_sound; eauto. apply rmatch_sound. rewrite E. now left. }
  unfold group, match_of. simpl.
  destruct n; [eauto|]. destruct (lookup (S n) (caps c')); [eauto|tauto].
Qed.

(** ** Loops and dictionaries *)

Lemma collect_ok {A B : Type} (f : A -> result B) (l : list A) :
  (forall a, In a l -> exists b, f a = Ok b) ->
  exists bs, collect l f = Ok bs /\ length bs = length l.
Proof.
  induction l as [|a l IH]; intro H; simpl.
  - exists []. auto.
  - destruct (H a) as (b & ->); [now left|].
    destruct IH as (bs & -> & Hl); [intros; apply H; now right|].
    simpl. exists (b :: bs). simpl. auto.
Qed.

Lemma collect_in {A B : Type} (f : A -> result B) (l : list A) :
  forall bs, collect l f = Ok bs ->
  forall b, In b bs -> exists a, In a l /\ f a = Ok b.
Proof.
  induction l as [|a l IH]; simpl; intros bs H b Hb.
  - inversion H; subst. destruct Hb.
  - destruct (f a) as [b0|e] eqn:E; [|discriminate]. simpl in H.
    destruct (collect l f) as [bs0|e]; [|discriminate]. simpl in H.
    inversion H; subst. destruct Hb as [<-|Hb]; [eauto|].
    destruct (IH _ eq_refl _ Hb) as (a' & ? & ?). eauto.
Qed.

Lemma join_nonempty (sep : str) (l : list str) :
  l <> [] -> (forall x, In x l -> x <> []) -> join sep l <> [].
Proof.
  destruct l as [|a l]; [tauto|]. intros _ H.
  assert (Ha : a <> []) by (apply H; now left).
  destruct a as [|x a]; [tauto|]. simpl. destruct l; discriminate.
Qed.

Lemma elements_nonempty (hash : set_impl) (l : list str) :
  l <> [] -> elements hash l <> [].
Proof.
  intros Hl E. pose proof (elements_perm hash l) as P. rewrite E in P.
  apply Permutation_nil in P. destruct l as [|a l]; [tauto|].
  assert (In a (nodup str_eq_dec (a :: l))) by (apply nodup_In; now left).
  rewrite P in H. destruct H.
Qed.

Lemma elements_in (hash : set_impl) (l : list str) (x : str) :
  In x (elements hash l) -> In x l.
Proof.
  intro H. apply (Permutation_in _ (elements_perm hash l)) in H.
  now apply nodup_In in H.
Qed.

Lemma keys_dict_set (k : string) (v : str) (d : dict) :
  In k (keys d) -> keys (dict_set k v d) = keys d.
Proof.
  induction d as [|[k' v'] d IH]; simpl; [tauto|]. intros [->|H].
  - now rewrite String.eqb_refl.
  - destruct (String.eqb k' k); simpl; [reflexivity|]. now rewrite IH.
Qed.

Lemma dict_get_set_same (k : string) (v : str) (d : dict) :
  dict_get k (dict_set k v d) = Ok v.
Proof.
  induction d as [|[k' v'] d IH]; simpl.
  - now rewrite String.eqb_refl.
  - destruct (String.eqb k' k) eqn:E; simpl; rewrite E; auto.
Qed.

Lemma dict_get_set_other (k k0 : string) (v : str) (d : dict) :
  k0 <> k -> dict_get k0 (dict_set k v d) = dict_get k0 d.
Proof.
  intro N. induction d as [|[k' v'] d IH]; simpl.
  - destruct (String.eqb_spec k k0); [congruence|reflexivity].
  - destruct (String.eqb_spec k' k); simpl.
    + subst. destruct (String.eqb_spec k k0); [congruence|reflexivity].
    + now rewrite IH.
Qed.

Lemma dict_rebuild (dflt : str) (d : dict) :
  NoDup (keys d) ->
  map (fun c => (c, match dict_get c d with Ok v => v | Raise _ => dflt end))
      (keys d) = d.
Proof.
  induction d as [|[k v] d IH]; simpl; intro H; [reflexivity|].
  inversion H as [|? ? Hk Hd]; subst. rewrite String.eqb_refl. f_equal.
  rewrite <- (IH Hd) at 2. apply map_ext_in. intros c Hc.
  destruct (String.eqb_spec k c); [subst; contradiction|reflexivity].
Qed.

Lemma dict_get_in (k : string) (d : dict) :
  In k (keys d) -> exists v, dict_get k d = Ok v.
Proof.
  induction d as [|[k' v'] d IH]; simpl; [tauto|]. intro H.
  destruct (String.eqb_spec k' k); [eauto|]. destruct H; [congruence|auto].
Qed.

(** ** Searching *)

Lemma search_from_iff (ic : bool) (r : regex) (s : str) :
  forall p,
  search_from ic r p s <> None
  <-> exists u v, s = u ++ v /\ rmatch ic r (Cur (lastc p u) v []) <> [].
Proof.
  induction s as [|x s IH]; intro p; simpl.
  - destruct (rmatch ic r (Cur p [] [])) as [|c' l] eqn:E.
    + split; [tauto|]. intros (u & v & Huv & H).
      symmetry in Huv. apply app_eq_nil in Huv. destruct Huv; subst.
      simpl in H. tauto.
    + split; [|discriminate]. intros _. exists [], []. simpl. rewrite E.
      split; [reflexivity|discriminate].
  - destruct (rmatch ic r (Cur p (x :: s) [])) as [|c' l] eqn:E.
    + rewrite IH. split.
      * intros (u & v & -> & H). exists (x :: u), v. auto.
      * intros (u & v & Huv & H). destruct u as [|y u].
        -- simpl in Huv, H. subst v. tauto.
        -- inversion Huv; subst. exists u, v. auto.
    + split; [|discriminate]. intros _. exists [], (x :: s). simpl. rewrite E.
      split; [reflexivity|discriminate].
Qed.

Lemma rmatch_nonempty (ic : bool) (r : regex) (c : cursor) :
  plain r = true ->
  (rmatch ic r c <> [] <-> exists c', matches ic r c c').
Proof.
  intro Hp. split.
  - destruct (rmatch ic r c) as [|c' l] eqn:E; [tauto|]. intros _.
    exists c'. apply rmatch_sound. rewrite E. now left.
  - intros (c' & H) E. apply (rmatch_complete _ _ Hp) in H.
    rewrite E in H. destruct H.
Qed.

(** [re.split] returns one piece more than there are matches. *)
Lemma hits_between_counts (ms : list match_obj) :
  ms <> [] ->
  S (length (flat_map unmatched (hits_between ms)))
  = length (flat_map found (hits_between ms)).
Proof.
  induction ms as [|m [|m' ms] IH]; intro H; [tauto|reflexivity|].
  change (hits_between (m :: m' :: ms))
    with (Hit m :: Text [] :: hits_between (m' :: ms)).
  cbn [flat_map unmatched found app length].
  rewrite <- IH by discriminate. reflexivity.
Qed.

Lemma scan_counts (ic : bool) (r : regex) (s : str) :
  forall k g p,
  length (flat_map unmatched (scan ic r k g p s))
  = S (length (flat_map found (scan ic r k g p s))).
Proof.
  induction s as [|x s IH]; intros k g p.
  - destruct k; [|reflexivity]. cbn [scan].
    destruct (at_pos ic r p []) as [[|m ms] n]; [reflexivity|].
    cbn [flat_map unmatched found app length].
    rewrite !flat_map_app, !length_app.
    rewrite <- (@hits_between_counts (m :: ms)) by discriminate.
    simpl. lia.
  - destruct k; cbn [scan]; [|apply IH].
    destruct (at_pos ic r p (x :: s)) as [[|m ms] n]; [apply IH|].
    cbn [flat_map unmatched found app length].
    rewrite !flat_map_app, !length_app.
    rewrite <- (@hits_between_counts (m :: ms)) by discriminate.
    destruct n; rewrite IH; simpl; lia.
Qed.

Lemma split_counts (ic : bool) (r : regex) (s : str) :
  length (re_split ic r s) = S (length (re_findall ic r s)).
Proof. apply scan_counts. Qed.

End PyFacts.

(** * Facts about the program *)

Module MainFacts.
Import Py Main Spec PyFacts.

Local Open Scope string_scope.
Local Open Scope list_scope.
Local Open Scope nat_scope.

(** ** Whitespace normalisation *)

Lemma squeeze_run (s : str) :
  squeeze true s = squeeze false (skipn (run isspace s) s).
Proof.
  induction s as [|x s IH]; [reflexivity|]. simpl.
  destruct (isspace x) eqn:E; simpl; [exact IH|]. now rewrite E.
Qed.

Lemma spaces_hit (p : option ascii) (x : ascii) (s : str) :
  isspace x = true ->
  exists l,
    rmatch false spaces_re (Cur p (x :: s) [])
    = Cur (lastc (Some x) (firstn (run isspace s) s))
          (skipn (run isspace s) s) [] :: l.
Proof.
  intro E.
  destruct (@rmatch_greedy_first false 1 ws (Cur p (x :: s) [])) as (l & Hl).
  { cbn. rewrite E. lia. }
  exists l. unfold spaces_re, plus. rewrite Hl.
  cbn [rest]. change (atom_ok false ws) with isspace. cbn [run]. rewrite E.
  rewrite forward_run by (pose proof (run_le_length isspace s); simpl; lia).
  reflexivity.
Qed.

Lemma spaces_miss (p : option ascii) (x : ascii) (s : str) :
  isspace x = false -> rmatch false spaces_re (Cur p (x :: s) []) = [].
Proof.
  intro E. apply rmatch_plus_none. cbn. now rewrite E.
Qed.

Lemma sub_spaces_from (n : nat) :
  forall s p, length s <= n ->
  flat_map (render [RText (py " ")]) (scan false spaces_re 0 [] p s)
  = squeeze false s.
Proof.
  induction n as [|n IH]; intros s p Hn.
  - destruct s; [|simpl in Hn; lia]. reflexivity.
  - destruct s as [|x s]; [reflexivity|]. simpl in Hn.
    destruct (isspace x) eqn:E.
    + destruct (@spaces_hit p x s E) as (l & Hl).
      assert (Hs : s = firstn (run isspace s) s ++ skipn (run isspace s) s)
        by (symmetry; apply firstn_skipn).
      assert (Ht : length (skipn (run isspace s) s) <= n)
        by (rewrite length_skipn; lia).
      assert (Hq : squeeze false (x :: s)
                   = " "%char :: squeeze false (skipn (run isspace s) s)).
      { simpl. rewrite E. now rewrite squeeze_run. }
      rewrite Hq. clear Hq.
      set (w := firstn (run isspace s) s) in *.
      set (t := skipn (run isspace s) s) in *.
      rewrite Hs in Hl |- *.
      erewrite sub_hit; [|exact Hl|reflexivity].
      rewrite IH by exact Ht. reflexivity.
    + rewrite sub_miss by (apply spaces_miss; exact E).
      rewrite IH by lia. simpl. now rewrite E.
Qed.

Lemma normalize_whitespace_squeeze (s : str) :
  normalize_whitespace s = squeeze false s.
Proof. apply (@sub_spaces_from (length s)). lia. Qed.

Lemma squeeze_idem (b : bool) (s : str) :
  squeeze b (squeeze b s) = squeeze b s.
Proof.
  revert b. induction s as [|x s IH]; intro b; [reflexivity|]. simpl.
  destruct (isspace x) eqn:E.
  - destruct b; [apply IH|]. simpl. now rewrite IH.
  - simpl. rewrite E. now rewrite IH.
Qed.

Lemma squeeze_length (b : bool) (s : str) : length (squeeze b s) <= length s.
Proof.
  revert b. induction s as [|x s IH]; intro b; simpl; [lia|].
  pose proof (IH true). pose proof (IH false).
  destruct (isspace x); [destruct b|]; simpl; lia.
Qed.

Lemma squeeze_app (u v : str) :
  forall b,
  squeeze b (u ++ v)
  = squeeze b u ++ squeeze (fold_left (fun _ x => isspace x) u b) v.
Proof.
  induction u as [|x u IH]; intro b; [reflexivity|]. simpl.
  destruct (isspace x); [destruct b|]; simpl; now rewrite IH.
Qed.

Lemma app_same_length {A : Type} (a u c v : list A) :
  length a = length u -> a ++ c = u ++ v -> a = u /\ c = v.
Proof.
  revert u. induction a as [|x a IH]; intros [|y u] L E;
    simpl in *; try discriminate; [auto|].
  inversion E; subst. destruct (IH u) as [-> ->]; auto.
Qed.

(** A text that the squeeze leaves alone has parts that it leaves alone. *)
Lemma squeeze_fix_parts (b : bool) (u v : str) :
  squeeze b (u ++ v) = u ++ v ->
  squeeze b u = u
  /\ squeeze (fold_left (fun _ x => isspace x) u b) v = v.
Proof.
  rewrite squeeze_app. intro E. apply app_same_length; [|exact E].
  pose proof (squeeze_length b u) as L1.
  pose proof (squeeze_length (fold_left (fun _ x => isspace x) u b) v) as L2.
  apply (f_equal (@length ascii)) in E. rewrite !length_app in E. lia.
Qed.

Lemma lstrip_split (s : str) :
  exists sp, s = sp ++ lstrip s /\ Forall (fun x => isspace x = true) sp.
Proof.
  induction s as [|x s (sp & E & F)]; [exists []; auto|]. simpl.
  destruct (isspace x) eqn:Ex.
  - exists (x :: sp). simpl. rewrite <- E. auto.
  - exists []. auto.
Qed.

Lemma lstrip_head (s : str) :
  lstrip s = [] \/ exists x r, lstrip s = x :: r /\ isspace x = false.
Proof.
  induction s as [|x s IH]; [auto|]. simpl.
  destruct (isspace x) eqn:Ex; [exact IH|eauto].
Qed.

Lemma lstrip_idem (s : str) : lstrip (lstrip s) = lstrip s.
Proof.
  destruct (lstrip_head s) as [->|(x & r & -> & Ex)]; [reflexivity|].
  simpl. now rewrite Ex.
Qed.

Lemma rstrip_split (s : str) :
  exists sp, s = rstrip s ++ sp /\ Forall (fun x => isspace x = true) sp.
Proof.
  destruct (lstrip_split (rev s)) as (sp & E & F). exists (rev sp). split.
  - unfold rstrip. rewrite <- rev_app_distr, <- E. now rewrite rev_involutive.
  - now apply Forall_rev.
Qed.

Lemma lstrip_snoc (w : str) (x : ascii) :
  isspace x = false -> exists w', lstrip (w ++ [x]) = w' ++ [x].
Proof.
  intro Ex. induction w as [|y w (w' & IH)]; simpl.
  - rewrite Ex. exists []. reflexivity.
  - destruct (isspace y); [eauto|]. exists (y :: w). reflexivity.
Qed.

Lemma rstrip_keeps_head (x : ascii) (r : str) :
  isspace x = false -> exists r', rstrip (x :: r) = x :: r'.
Proof.
  intro Ex. unfold rstrip. simpl.
  destruct (@lstrip_snoc (rev r) x Ex) as (w' & ->).
  rewrite rev_app_distr. simpl. eauto.
Qed.

Lemma fold_left_space (sp : str) (b : bool) :
  Forall (fun x => isspace x = true) sp -> sp <> [] ->
  fold_left (fun _ x => isspace x) sp b = true.
Proof.
  intros F. revert b. induction F as [|x sp Hx F IH]; intros b N; [tauto|].
  simpl. destruct sp as [|y sp]; [exact Hx|]. apply IH. discriminate.
Qed.

(** Stripping a squeezed text leaves it squeezed, and stripped. *)
Lemma squeeze_strip (q : str) :
  squeeze false q = q -> squeeze false (strip q) = strip q.
Proof.
  intro Hq. unfold strip.
  assert (Hl : squeeze false (lstrip q) = lstrip q).
  { destruct (lstrip_split q) as (sp & E & F).
    assert (Hq' : squeeze false (sp ++ lstrip q) = sp ++ lstrip q)
      by (rewrite <- E; exact Hq).
    apply squeeze_fix_parts in Hq'. destruct Hq' as [_ Hq'].
    destruct sp as [|y sp]; [exact Hq'|].
    rewrite fold_left_space in Hq' by (auto; discriminate).
    destruct (lstrip_head q) as [->|(x & r & Ex & Hx)]; [reflexivity|].
    rewrite Ex in *. simpl in *. rewrite Hx in *. exact Hq'. }
  destruct (rstrip_split (lstrip q)) as (sp & E & F).
  rewrite E in Hl. apply squeeze_fix_parts in Hl. tauto.
Qed.

Lemma strip_idem (s : str) : strip (strip s) = strip s.
Proof.
  unfold strip.
  assert (Hl : lstrip (rstrip (lstrip s)) = rstrip (lstrip s)).
  { destruct (lstrip_head s) as [->|(x & r & -> & Ex)]; [reflexivity|].
    destruct (@rstrip_keeps_head x r Ex) as (r' & ->). simpl. now rewrite Ex. }
  rewrite Hl. unfold rstrip. rewrite rev_involutive. now rewrite lstrip_idem.
Qed.

(** C9: collapsing every run of whitespace to one space is idempotent:
    [re.sub(r'\s+', ' ', t)] applied to its own result gives that result, in
    [process_pdf] and, followed by [strip()], in [extract_school_data]. *)
Theorem normalize_whitespace_idempotent (t : str) :
  normalize_whitespace (normalize_whitespace t) = normalize_whitespace t
  /\ normalize (normalize t) = normalize t.
Proof.
  split.
  - rewrite !normalize_whitespace_squeeze. apply squeeze_idem.
  - unfold normalize.
    change (re_sub false spaces_re [RText (py " ")])
      with normalize_whitespace.
    rewrite !normalize_whitespace_squeeze.
    rewrite squeeze_strip by apply squeeze_idem. apply strip_idem.
Qed.

(** ** Telephone numbers *)

Lemma strip_nondigits_from (s : str) :
  forall p,
  flat_map (render []) (scan false nondigit_re 0 [] p s) = filter isdecimal s.
Proof.
  induction s as [|x s IH]; intro p; [reflexivity|].
  simpl filter. destruct (isdecimal x) eqn:E.
  - rewrite sub_miss; [now rewrite IH|].
    unfold nondigit_re. simpl. now rewrite E.
  - assert (H : rmatch false nondigit_re (Cur p (x :: [] ++ s) [])
                = [Cur (Some x) s []]).
    { unfold nondigit_re. simpl. now rewrite E. }
    change (x :: s) with (x :: [] ++ s) at 1.
    erewrite sub_hit; [|exact H|reflexivity]. simpl. apply IH.
Qed.

(** [re.sub(r'[^\d]', '', phone)] keeps the digits. *)
Lemma strip_nondigits (s : str) :
  re_sub false nondigit_re [] s = filter isdecimal s.
Proof. apply strip_nondigits_from. Qed.

Lemma digits_keep (w : str) :
  Forall (fun x => atom_ok false digit x = true) w -> filter isdecimal w = w.
Proof.
  induction 1 as [|x w Hx _ IH]; [reflexivity|]. simpl in *.
  now rewrite Hx, IH.
Qed.

Lemma seps_drop (seps : string) (w : str) :
  forallb (fun x => negb (isdecimal x)) (py seps) = true ->
  Forall (fun x => atom_ok false (OneOf (chars seps)) x = true) w ->
  filter isdecimal w = [].
Proof.
  intros Hs. induction 1 as [|x w Hx _ IH]; [reflexivity|]. simpl in *.
  rewrite IH. unfold chars, mem in Hx. apply existsb_exists in Hx.
  destruct Hx as (y & Hy & Exy). apply Ascii.eqb_eq in Exy. subst y.
  rewrite forallb_forall in Hs. specialize (Hs _ Hy).
  destruct (isdecimal x); [discriminate|reflexivity].
Qed.

(** The digits of a text that [phone_re] takes: nine or ten for the first
    alternative; nine to twelve, the first of them 0, for the second. *)
Lemma phone_digits (w : str) :
  spells false phone_re w ->
  9 <= length (filter isdecimal w) <= 10
  \/ (9 <= length (filter isdecimal w) <= 12
       /\ exists d, filter isdecimal w = "0"%char :: d).
Proof.
  unfold phone_re, seqs, times, opt. simpl. intros [H|H].
  - left.
    destruct H as (w0 & r0 & -> & -> & w1 & r1 & -> & (F1 & L1 & U1)
                   & w2 & r2 & -> & (F2 & L2 & U2)
                   & w3 & r3 & -> & (F3 & L3 & U3)
                   & w4 & r4 & -> & (F4 & L4 & U4)
                   & w5 & r5 & -> & (F5 & L5 & U5)
                   & w6 & r6 & -> & -> & ->).
    rewrite !filter_app.
    rewrite (digits_keep F1), (digits_keep F3), (digits_keep F5).
    rewrite (@seps_drop "-." w2 eq_refl F2), (@seps_drop "-." w4 eq_refl F4).
    simpl. rewrite !length_app. simpl. lia.
  - right.
    destruct H as (w0 & r0 & -> & -> & wz & rz & -> & (z & -> & Hz)
                   & w1 & r1 & -> & (F1 & L1 & U1)
                   & w2 & r2 & -> & (F2 & L2 & U2)
                   & w3 & r3 & -> & (F3 & L3 & U3)
                   & w4 & r4 & -> & (F4 & L4 & U4)
                   & w5 & r5 & -> & (F5 & L5 & U5)
                   & w6 & r6 & -> & -> & ->).
    apply Ascii.eqb_eq in Hz. subst z.
    rewrite !filter_app.
    rewrite (digits_keep F1), (digits_keep F3), (digits_keep F5).
    rewrite (@seps_drop "- " w2 eq_refl F2), (@seps_drop "- " w4 eq_refl F4).
    simpl. rewrite !length_app. simpl. split; [lia|eauto].
Qed.

(** C4, as the program has it: a text found by the telephone pattern keeps
    nine to twelve digits, and one that keeps twelve starts with 0; so the
    test [len(cleaned) == 12 and cleaned.startswith('254')] is false for every
    text the loop over [phones] sees. *)
Theorem phone_254_branch_dead (value phone : str) :
  In phone (re_findall false phone_re value) ->
  9 <= length (re_sub false nondigit_re [] phone) <= 12
  /\ (length (re_sub false nondigit_re [] phone) = 12 ->
      startswith (re_sub false nondigit_re [] phone) (py "0") = true)
  /\ (length (re_sub false nondigit_re [] phone) =? 12)
     && startswith (re_sub false nondigit_re [] phone) (py "254") = false.
Proof.
  intro H. apply findall_spells, phone_digits in H.
  rewrite strip_nondigits.
  destruct H as [H|(H & d & E)].
  - repeat split; try lia.
    destruct (Nat.eqb_spec (length (filter isdecimal phone)) 12); [lia|reflexivity].
  - rewrite E in *. split; [lia|]. split; [reflexivity|]. apply andb_false_r.
Qed.

Lemma phone_254_branch_dead_witness :
  In (py "0123 4567 8901") (re_findall false phone_re (py "0123 4567 8901"))
  /\ length (re_sub false nondigit_re [] (py "0123 4567 8901")) = 12
  /\ (length (re_sub false nondigit_re [] (py "0123 4567 8901")) =? 12)
     && startswith (re_sub false nondigit_re [] (py "0123 4567 8901"))
                   (py "254") = false.
Proof.
  split; [vm_compute; auto|]. split; [reflexivity|].
  apply (@phone_254_branch_dead (py "0123 4567 8901") (py "0123 4567 8901")).
  vm_compute. auto.
Defined.

(** C4, as stated, fails: the second alternative of the pattern takes up to
    twelve digits. *)
Lemma phone_match_of_twelve_digits :
  ~ (forall value phone : str,
       In phone (re_findall false phone_re value) ->
       length (re_sub false nondigit_re [] phone) <= 11).
Proof.
  intro H.
  specialize (H (py "0123 4567 8901") (py "0123 4567 8901")).
  assert (In (py "0123 4567 8901")
             (re_findall false phone_re (py "0123 4567 8901")))
    by (vm_compute; auto).
  specialize (H H0). vm_compute in H. lia.
Qed.

(** ** The extractor returns a record *)

Section Total.

Variable hash : set_impl.

Lemma clean_phone_ok (phone : str) : exists v, clean_phone phone = Ok v.
Proof.
  unfold clean_phone. set (cleaned := re_sub false nondigit_re [] phone).
  destruct (length cleaned =? 9) eqn:E.
  - destruct cleaned as [|c0 cl]; [discriminate|].
    unfold index. cbn [nth_error bind].
    destruct (mem c0 (py "23456789")); [eauto|].
    destruct (_ && _); eauto.
  - cbn [bind]. destruct (_ && _); eauto.
Qed.

Lemma cleaned_value_ok (field : string) (value : str) :
  exists v, cleaned_value hash field value = Ok v.
Proof.
  unfold cleaned_value.
  destruct (String.eqb field "Phone").
  - destruct (@collect_ok _ _ clean_phone (re_findall false phone_re value))
      as (bs & -> & _); [intros; apply clean_phone_ok|]. simpl. eauto.
  - destruct (String.eqb field "Email"); [eauto|].
    destruct (String.eqb field "Website"); eauto.
Qed.

Lemma extract_field_spec (text_block : str) (data : dict) (item : string * regex) :
  In (fst item) (keys data) ->
  has_group 1 (snd item) = true ->
  exists d' old new,
    extract_field hash text_block data item = Ok d'
    /\ keys d' = keys data
    /\ (forall k, k <> fst item -> dict_get k d' = dict_get k data)
    /\ dict_get (fst item) data = Ok old
    /\ dict_get (fst item) d' = Ok new
    /\ field_outcome hash text_block item old new.
Proof.
  intros Hk Hg. destruct item as [field pattern]. cbn [fst snd] in *.
  destruct (dict_get_in _ _ Hk) as (old & Hold).
  unfold extract_field, field_outcome, fst, snd.
  destruct (re_search true pattern text_block) as [m|] eqn:E.
  - destruct (@group_of_search true 1 pattern text_block m Hg E) as (g & Eg).
    rewrite Eg. cbn [bind].
    destruct (strip g) as [|y value] eqn:Es.
    + exists data, old, old. repeat split; auto.
      exists g. rewrite Es. auto.
    + destruct (cleaned_value_ok field (y :: value)) as (v & Ev). rewrite Ev.
      cbn [bind]. exists (dict_set field v data), old, v.
      repeat split; auto.
      * now apply keys_dict_set.
      * intros k N. now apply dict_get_set_other.
      * apply dict_get_set_same.
      * exists g. rewrite Es. auto.
  - exists data, old, old. repeat split; auto.
Qed.

Lemma for_each_fields (text_block : str) (l : list (string * regex)) :
  forall data,
  NoDup (map fst l) ->
  (forall item, In item l ->
     In (fst item) (keys data) /\ has_group 1 (snd item) = true) ->
  exists r,
    for_each l (extract_field hash text_block) data = Ok r
    /\ keys r = keys data
    /\ (forall k, ~ In k (map fst l) -> dict_get k r = dict_get k data)
    /\ (forall item, In item l ->
          exists old new,
            dict_get (fst item) data = Ok old
            /\ dict_get (fst item) r = Ok new
            /\ field_outcome hash text_block item old new).
Proof.
  induction l as [|item l IH]; intros data Hnd Hl.
  - exists data. simpl. repeat split; auto. intros ? [].
  - simpl in Hnd. inversion Hnd as [|? ? Hni Hnd']; subst.
    destruct (Hl item (or_introl eq_refl)) as [Hk Hg].
    destruct (extract_field_spec text_block data item Hk Hg)
      as (d' & old & new & Ed & Kd & Od & Hold & Hnew & Hout).
    destruct (IH d' Hnd') as (r & Er & Kr & Or & Ir).
    { intros it Hit. rewrite Kd. apply Hl. now right. }
    exists r. simpl. rewrite Ed. simpl. rewrite Er.
    split; [reflexivity|]. split; [congruence|]. split.
    + intros k Hk'. simpl in Hk'. rewrite Or by tauto. apply Od.
      intro; subst; tauto.
    + intros it [<-|Hit].
      * exists old, new. rewrite Or by exact Hni. auto.
      * destruct (Ir it Hit) as (o & n & Ho & Hn & Hf).
        exists o, n. repeat split; auto. rewrite <- Od; auto.
        intro Heq. apply Hni. rewrite <- Heq. now apply in_map.
Qed.

Lemma fields_keys :
  map fst fields
  = ["Location"; "Address"; "City/ Town"; "County"; "Country"; "Website";
     "Phone"; "Email"; "Fax"]%string.
Proof. reflexivity. Qed.

Lemma fields_groups :
  forall item, In item fields -> has_group 1 (snd item) = true.
Proof.
  assert (H : forallb (fun item => has_group 1 (snd item)) fields = true)
    by (vm_compute; reflexivity).
  rewrite forallb_forall in H. exact H.
Qed.

Lemma fields_loop_spec (t : str) (d1 : dict) :
  keys d1 = columns ->
  (forall k, In k (map fst fields) -> dict_get k d1 = Ok NA) ->
  exists r,
    for_each fields (extract_field hash t) d1 = Ok r
    /\ keys r = columns
    /\ (forall item, In item fields ->
          exists new,
            dict_get (fst item) r = Ok new
            /\ field_outcome hash t item NA new).
Proof.
  intros Kd Nd.
  destruct (@for_each_fields t fields d1) as (r & Er & Kr & _ & Ir).
  - rewrite fields_keys. repeat constructor; simpl; intuition discriminate.
  - intros item Hit. split; [|now apply fields_groups].
    rewrite Kd. apply (in_map fst) in Hit. rewrite fields_keys in Hit.
    simpl in Hit. unfold columns. simpl. tauto.
  - exists r. split; [exact Er|]. split; [congruence|].
    intros item Hit. destruct (Ir item Hit) as (o & n & Ho & Hn & Hf).
    exists n. split; [exact Hn|].
    rewrite Nd in Ho by (now apply in_map). inversion Ho; subst. exact Hf.
Qed.

(** The extractor never raises; the record has the ten keys in their order;
    and what stands under each labelled key is the outcome of that field's
    own search, whatever the other fields did. *)
Lemma extract_school_data_spec (text_block : str) :
  exists r,
    extract_school_data hash text_block = Ok r
    /\ keys r = columns
    /\ (forall item, In item fields ->
          exists new,
            dict_get (fst item) r = Ok new
            /\ field_outcome hash (normalize text_block) item NA new).
Proof.
  unfold extract_school_data.
  set (t := normalize text_block).
  destruct (re_match false name_re t) as [m|] eqn:E.
  - destruct (@group_of_match false 1 name_re t m eq_refl E) as (g & ->).
    cbn [bind]. apply fields_loop_spec; [reflexivity|].
    rewrite fields_keys. intros k Hk. simpl in Hk.
    repeat (destruct Hk as [<-|Hk]; [reflexivity|]). destruct Hk.
  - cbn [bind]. apply fields_loop_spec; [reflexivity|].
    rewrite fields_keys. intros k Hk. simpl in Hk.
    repeat (destruct Hk as [<-|Hk]; [reflexivity|]). destruct Hk.
Qed.

End Total.

(** ** The claims about the extractor *)

(** C8: field extraction is total: for every span the extractor returns a
    record and raises nothing; a field whose pattern does not match holds the
    sentinel; and every field holds the outcome of its own search, so a
    failing pattern does not stop the fields after it. *)
Theorem extract_school_data_total (hash : set_impl) (text_block : str) :
  exists r,
    extract_school_data hash text_block = Ok r
    /\ forall field pattern, In (field, pattern) fields ->
         (re_search true pattern (normalize text_block) = None ->
          dict_get field r = Ok NA)
         /\ exists new,
              dict_get field r = Ok new
              /\ field_outcome hash (normalize text_block) (field, pattern)
                               NA new.
Proof.
  destruct (extract_school_data_spec hash text_block) as (r & Er & _ & Hr).
  exists r. split; [exact Er|]. intros field pattern Hin.
  destruct (Hr _ Hin) as (new & Hn & Ho). split; [|eauto].
  intro Hs. unfold field_outcome in Ho. simpl in Ho. rewrite Hs in Ho.
  now subst.
Qed.

Lemma extract_school_data_total_witness :
  exists r,
    extract_school_data first_seen (py "Sunrise Academy Location: Kasarani")
    = Ok r
    /\ dict_get "Phone" r = Ok NA.
Proof.
  destruct (extract_school_data_total first_seen
              (py "Sunrise Academy Location: Kasarani")) as (r & Er & H).
  exists r. split; [exact Er|].
  apply (H "Phone" (field_re "Phone:")).
  - do 6 right. left. reflexivity.
  - vm_compute. reflexivity.
Defined.

(** C5, for the keys as the program spells them: every record has exactly
    the ten keys School Name, Location, Address, City/ Town, County, Country,
    Website, Phone, Email, Fax in this order, each with a string under it,
    so that the column selection of [save_to_excel] changes nothing; and a
    labelled key with no extracted value holds "NA". *)
Theorem record_has_the_ten_columns (hash : set_impl) (text_block : str) :
  exists r,
    extract_school_data hash text_block = Ok r
    /\ keys r = ["School Name"; "Location"; "Address"; "City/ Town";
                 "County"; "Country"; "Website"; "Phone"; "Email"; "Fax"]
    /\ (forall key, In key (keys r) -> exists v, dict_get key r = Ok v)
    /\ reindex r = r
    /\ (forall item, In item fields ->
          nothing_extracted (normalize text_block) item ->
          dict_get (fst item) r = Ok NA).
Proof.
  destruct (extract_school_data_spec hash text_block) as (r & Er & Kr & Hr).
  exists r. split; [exact Er|]. split; [exact Kr|]. split; [|split].
  - intros key Hk. now apply dict_get_in.
  - unfold reindex. rewrite <- Kr. apply dict_rebuild. rewrite Kr.
    unfold columns. repeat constructor; simpl; intuition discriminate.
  - intros [field pattern] Hin Hno.
    destruct (Hr _ Hin) as (new & Hn & Ho). rewrite Hn. f_equal.
    unfold field_outcome in Ho. unfold nothing_extracted in Hno.
    cbn [fst snd] in *.
    destruct (re_search true pattern (normalize text_block)) as [m|];
      [|exact Ho].
    destruct Ho as (g & Eg & Ho), Hno as (g' & Eg' & Hno).
    rewrite Eg in Eg'. inversion Eg'; subst g'; clear Eg'.
    destruct (strip g) as [|y value]; [exact Ho|].
    unfold cleaned_value in Ho.
    destruct Hno as [Hno|[[-> Hno]|[[-> Hno]|[-> Hno]]]];
      [discriminate| | |]; cbn [String.eqb Ascii.eqb Bool.eqb] in Ho;
      rewrite Hno in Ho; simpl in Ho; now inversion Ho.
Qed.

Lemma record_has_the_ten_columns_witness :
  exists r,
    extract_school_data first_seen (py "Sunrise Academy Location: Kasarani")
    = Ok r
    /\ dict_get "Phone" r = Ok NA.
Proof.
  destruct (record_has_the_ten_columns first_seen
              (py "Sunrise Academy Location: Kasarani"))
    as (r & Er & _ & _ & _ & H).
  exists r. split; [exact Er|].
  apply (H ("Phone", field_re "Phone:")).
  - do 6 right. left. reflexivity.
  - vm_compute. exact I.
Defined.

(** C5, as stated, fails: the fourth key of a record is "City/ Town", with a
    space, not "City/Town". *)
Lemma fourth_key_is_not_City_Town :
  ~ (forall (hash : set_impl) (text_block : str) (r : dict),
       extract_school_data hash text_block = Ok r ->
       keys r = ["School Name"; "Location"; "Address"; "City/Town"; "County";
                 "Country"; "Website"; "Phone"; "Email"; "Fax"]).
Proof.
  intro H.
  specialize (H first_seen (py "Sunrise Academy Location: Kasarani") _ eq_refl).
  vm_compute in H. discriminate.
Qed.

(** A labelled field is never stored empty. *)
Lemma clean_phone_nonempty (value phone v : str) :
  In phone (re_findall false phone_re value) ->
  clean_phone phone = Ok v -> v <> [].
Proof.
  intros Hin. apply findall_spells, phone_digits in Hin.
  unfold clean_phone. rewrite strip_nondigits.
  set (cleaned := filter isdecimal phone) in *.
  assert (L : 9 <= length cleaned) by (destruct Hin as [?|[? _]]; lia).
  destruct (length cleaned =? 9)%nat.
  - destruct cleaned as [|c0 cl]; [simpl in L; lia|].
    unfold index. cbn [nth_error bind].
    destruct (mem c0 _); [intro H; inversion H; discriminate|].
    destruct (_ && _); intro H; inversion H; discriminate.
  - cbn [bind]. destruct (_ && _); intro H; inversion H; subst.
    + discriminate.
    + intro E. rewrite E in L. simpl in L. lia.
Qed.

Lemma joined_nonempty (hash : set_impl) (l : list str) :
  (forall x, In x l -> x <> []) -> joined hash l <> [].
Proof.
  intro H. unfold joined. destruct l as [|a l]; [discriminate|].
  apply join_nonempty.
  - apply elements_nonempty. discriminate.
  - intros x Hx. apply H. eapply elements_in. exact Hx.
Qed.

Lemma findall_nonempty (ic : bool) (r : regex) (s x : str) :
  1 <= min_len r -> In x (re_findall ic r s) -> x <> [].
Proof.
  intros Hm Hx. apply findall_spells, spells_min_len in Hx.
  intro E. subst x. simpl in Hx. lia.
Qed.

Lemma cleaned_value_nonempty (hash : set_impl) (field : string)
  (y : ascii) (value new : str) :
  cleaned_value hash field (y :: value) = Ok new -> new <> [].
Proof.
  unfold cleaned_value.
  destruct (String.eqb field "Phone").
  - destruct (collect _ clean_phone) as [cps|e] eqn:E; [|discriminate].
    cbn [bind]. intro H. inversion H. apply joined_nonempty.
    intros x Hx. destruct (collect_in _ _ E _ Hx) as (a & Ha & Hc).
    eapply clean_phone_nonempty; eauto.
  - destruct (String.eqb field "Email").
    + intro H. inversion H. apply joined_nonempty. intros x.
      apply findall_nonempty. vm_compute. lia.
    + destruct (String.eqb field "Website").
      * intro H. inversion H. apply joined_nonempty. intros x.
        apply findall_nonempty. vm_compute. lia.
      * intro H. inversion H. discriminate.
Qed.

Lemma labelled_fields_never_empty (hash : set_impl) (text_block : str)
  (r : dict) (item : string * regex) (v : str) :
  extract_school_data hash text_block = Ok r ->
  In item fields ->
  dict_get (fst item) r = Ok v ->
  v <> [].
Proof.
  intros Er Hin Hv.
  destruct (extract_school_data_spec hash text_block) as (r' & Er' & _ & Hr).
  rewrite Er in Er'. inversion Er'; subst r'; clear Er'.
  destruct (Hr _ Hin) as (new & Hn & Ho). rewrite Hv in Hn.
  inversion Hn; subst new; clear Hn. unfold field_outcome in Ho.
  destruct (re_search true (snd item) (normalize text_block)) as [m|].
  - destruct Ho as (g & _ & Ho). destruct (strip g) as [|y value].
    + subst v. discriminate.
    + eapply cleaned_value_nonempty. exact Ho.
  - subst v. discriminate.
Qed.

(** C7 on the code: the labelled fields are never stored empty, but the name
    is stored as captured, without the test for emptiness that the labelled
    fields have.  A span that starts with a label gives the record an empty
    School Name, while its whitespace-only Fax keeps the sentinel. *)
Theorem empty_name_is_stored (hash : set_impl) :
  (forall text_block r item v,
     extract_school_data hash text_block = Ok r ->
     In item fields -> dict_get (fst item) r = Ok v -> v <> [])
  /\ exists r,
       extract_school_data hash (py "Location: Kasarani Fax:  ") = Ok r
       /\ dict_get "School Name" r = Ok []
       /\ dict_get "Location" r = Ok (py "Kasarani")
       /\ dict_get "Fax" r = Ok NA.
Proof.
  split; [intros; eapply labelled_fields_never_empty; eauto|].
  eexists. split; [vm_compute; reflexivity|]. vm_compute. auto.
Qed.

(** ** The pipeline on the end-to-end scenario *)

Lemma elements_singleton (hash : set_impl) (x : str) : elements hash [x] = [x].
Proof.
  pose proof (elements_perm hash [x]) as H. simpl in H.
  apply Permutation_sym, Permutation_length_1_inv in H. exact H.
Qed.

(** Evaluation with the order of sets left open: only sets of one element
    occur. *)
Ltac evaluate_with hash :=
  let H := fresh in
  let e := fresh in
  let He := fresh in
  pose proof (elements_singleton hash) as H;
  destruct hash as [e He]; cbn [elements] in H;
  vm_compute; rewrite ?H; reflexivity.

(** C2 on the code: the scenario text gives three records, not two.  The
    lookahead of [re.split] succeeds at "Alpha", "Boys", "High", "Beta" and
    "Girls", and the loop joins the five blocks two by two: the names are
    "Alpha Boys", "High School" and "Girls Academy". *)
Theorem two_schools_give_three_records (hash : set_impl) :
  school_blocks (normalize_whitespace (dehyphenate two_schools))
  = [py "Alpha "; py "Boys ";
     py "High School Location: Kasarani Phone: 0712345678 ";
     py "Beta "; py "Girls Academy Phone: 712-345-678"]
  /\ process_text hash two_schools
     = Ok [record "Alpha Boys" "NA" "NA" "NA" "NA" "NA" "NA" "NA" "NA" "NA";
           record "High School" "Kasarani" "NA" "NA" "NA" "NA" "NA"
                  "0712345678" "NA" "NA";
           record "Girls Academy" "NA" "NA" "NA" "NA" "NA" "NA"
                  "0712345678" "NA" "NA"].
Proof.
  split; [vm_compute; reflexivity|]. evaluate_with hash.
Qed.

(** The loop of [process_text] makes one record of every two blocks, and
    raises nothing. *)
Lemma in_range2 (n i : nat) : In i (range 0 n 2) -> i < n.
Proof.
  unfold range. intro H. apply in_map_iff in H. destruct H as (j & <- & Hj).
  apply in_seq in Hj.
  pose proof (Nat.div_mod_eq (n - 0 + 2 - 1) 2) as D.
  pose proof (Nat.mod_upper_bound (n - 0 + 2 - 1) 2) as M. lia.
Qed.

Lemma index_ok {A : Type} (l : list A) (i : nat) :
  i < length l -> exists a, index l i = Ok a.
Proof.
  intro H. unfold index. destruct (nth_error l i) eqn:E; [eauto|].
  apply nth_error_None in E. lia.
Qed.

(** There are as many blocks as places where the lookahead succeeds. *)
Lemma school_blocks_count (full_text : str) :
  length (school_blocks full_text)
  = length (re_findall false anchor_re full_text).
Proof.
  unfold school_blocks.
  pose proof (split_counts false anchor_re full_text) as H.
  destruct (re_split false anchor_re full_text); simpl in *; lia.
Qed.

Lemma process_text_pairs_blocks (hash : set_impl) (full_text : str) :
  exists schools,
    process_text hash full_text = Ok schools
    /\ length schools
       = (length (school_blocks (normalize_whitespace (dehyphenate full_text)))
          + 1) / 2.
Proof.
  unfold process_text.
  set (blocks := school_blocks (normalize_whitespace (dehyphenate full_text))).
  match goal with |- exists _, collect _ ?f = _ /\ _ =>
    destruct (@collect_ok _ _ f (range 0 (length blocks) 2)) as (rs & Hr & Hl)
  end.
  - intros i Hi. apply in_range2 in Hi.
    destruct (index_ok blocks Hi) as (b1 & ->).
    destruct (Nat.ltb_spec (i + 1) (length blocks)) as [H2|H2].
    + destruct (index_ok blocks H2) as (b2 & ->). cbn [bind].
      destruct (extract_school_data_spec hash (b1 ++ b2)%list) as (r & -> & _).
      eauto.
    + cbn [bind].
      destruct (extract_school_data_spec hash b1) as (r & -> & _). eauto.
  - exists rs. split; [exact Hr|]. rewrite Hl. unfold range.
    rewrite length_map, length_seq. f_equal. lia.
Qed.

(** C1 on the code: the number of records is not the number of anchors.  In
    the scenario text the anchor pattern occurs twice ("Alpha Boys High
    School", "Beta Girls Academy"), the lookahead of [re.split] succeeds at
    five places and cuts five blocks, and [process_pdf] returns three
    records. *)
Theorem records_do_not_count_anchors (hash : set_impl) :
  re_findall false anchor_body two_schools
  = [py "Alpha Boys High School"; py "Beta Girls Academy"]
  /\ length (re_findall false anchor_re two_schools) = 5
  /\ length (school_blocks (normalize_whitespace (dehyphenate two_schools)))
     = 5
  /\ length (process_pdf hash [two_schools]) = 3.
Proof.
  split; [vm_compute; reflexivity|].
  split; [vm_compute; reflexivity|].
  split; [vm_compute; reflexivity|].
  unfold process_pdf. cbn [join].
  destruct (process_text_pairs_blocks hash two_schools) as (schools & -> & ->).
  vm_compute. reflexivity.
Qed.

(** C3 on the code: the nine digits 712345678 are stored as 0712345678, but
    the twelve digits 254712345678 are stored as "NA": the telephone pattern
    finds nothing in twelve digits in a row, so the branch that would turn
    them into 0712345678 is never reached. *)
Theorem phone_254_is_lost (hash : set_impl) :
  cleaned_value hash "Phone" (py "712345678") = Ok (py "0712345678")
  /\ re_findall false phone_re (py "254712345678") = []
  /\ cleaned_value hash "Phone" (py "254712345678") = Ok NA
  /\ clean_phone (py "254712345678") = Ok (py "0712345678")
  /\ exists r,
       extract_school_data hash (py "Sunrise Academy Phone: 254712345678")
       = Ok r
       /\ dict_get "Phone" r = Ok NA.
Proof.
  split; [evaluate_with hash|].
  split; [vm_compute; reflexivity|].
  split; [vm_compute; reflexivity|].
  split; [vm_compute; reflexivity|].
  eexists. split; vm_compute; reflexivity.
Qed.

(** ** Labels *)

Local Open Scope char_scope.
Local Open Scope list_scope.

Lemma cursor_eta (c : cursor) : Cur (prev c) (rest c) (caps c) = c.
Proof. destruct c; reflexivity. Qed.

Lemma lits_no_groups (l : string) : no_groups (lits l) = true.
Proof. unfold lits. induction (py l); simpl; auto. Qed.

Lemma lits_plain (l : string) : plain (lits l) = true.
Proof. unfold lits. induction (py l); simpl; auto. Qed.

(** A literal text matches where the subject starts with it, and nowhere
    else; what stands before the position plays no part. *)
Lemma matches_lits (ic : bool) (l : string) (c c' : cursor) :
  matches ic (lits l) c c'
  <-> starts ic (rest c) (py l) = true
      /\ c' = Cur (lastc (prev c) (firstn (length (py l)) (rest c)))
                  (skipn (length (py l)) (rest c)) (caps c).
Proof.
  unfold lits. revert c. induction (py l) as [|a w IH]; intro c.
  - simpl. rewrite cursor_eta. split; [intros ->; auto|intros [_ ->]; auto].
  - cbn [fold_right matches]. split.
    + intros (cm & (x & s & E & Hx & ->) & H). apply IH in H.
      cbn [rest prev caps] in H. destruct H as [H ->]. rewrite E.
      cbn [starts]. rewrite Hx, H. split; reflexivity.
    + destruct (rest c) as [|x s] eqn:E; cbn [starts];
        [intros [? _]; discriminate|].
      intros [H ->]. apply andb_prop in H. destruct H as [Hx H].
      exists (Cur (Some x) s (caps c)). split; [exists x, s; auto|].
      apply IH. cbn [rest prev caps]. split; [exact H|reflexivity].
Qed.

Lemma alts_no_groups (ls : list string) :
  no_groups (fold_right (fun l r => Alt (lits l) r) Eol ls) = true.
Proof.
  induction ls as [|l ls IH]; simpl; [reflexivity|].
  now rewrite lits_no_groups, IH.
Qed.

Lemma matches_alts (ic : bool) (ls : list string) (c : cursor) :
  (exists cm, matches ic (fold_right (fun l r => Alt (lits l) r) Eol ls) c cm)
  <-> rest c = [] \/ rest c = ["010"]
      \/ exists l, In l ls /\ starts ic (rest c) (py l) = true.
Proof.
  induction ls as [|l ls IH]; cbn [fold_right matches].
  - split.
    + intros (cm & [H|H] & _); auto.
    + intros [H|[H|(l & [] & _)]]; exists c; auto.
  - split.
    + intros (cm & [H|H]).
      * apply matches_lits in H. right. right. exists l. simpl. tauto.
      * destruct IH as [IH _]. destruct IH as [H1|[H1|(l' & H1 & H2)]]; eauto.
        right. right. exists l'. simpl. auto.
    + intros [H|[H|(l' & [<-|H1] & H2)]].
      * destruct IH as [_ IH]. destruct IH as (cm & Hc); eauto.
      * destruct IH as [_ IH]. destruct IH as (cm & Hc); eauto.
      * eexists. left. apply matches_lits. eauto.
      * destruct IH as [_ IH]. destruct IH as (cm & Hc); eauto.
Qed.

(** The lookahead [(?=l1|...|$)] looks only at the text after the position. *)
Lemma rmatch_before (ic : bool) (ls : list string) (p : option ascii)
  (s : str) (cs : list (nat * str)) :
  rmatch ic (before ls) (Cur p s cs) <> []
  <-> s = [] \/ s = ["010"] \/ exists l, In l ls /\ starts ic s (py l) = true.
Proof.
  rewrite rmatch_nonempty by apply alts_no_groups.
  rewrite <- (matches_alts ic ls (Cur p s cs)). unfold before. simpl. split.
  - intros (c' & cm & H & _). eauto.
  - intros (cm & H). eauto.
Qed.

Lemma field_re_plain (label : string) : plain (field_re label) = true.
Proof.
  unfold field_re, before. simpl. now rewrite lits_plain, alts_no_groups.
Qed.

Lemma dot_accepts (ic : bool) (x : ascii) : x <> "010" -> atom_ok ic dot x = true.
Proof.
  intro H. unfold dot, atom_ok.
  assert (E : negb (Ascii.eqb x "010") = true).
  { destruct (Ascii.eqb_spec x "010"); [contradiction|reflexivity]. }
  rewrite E. destruct ic; reflexivity.
Qed.

(** A field pattern matches at a position of a text without line breaks
    exactly when the text there starts with the label. *)
Lemma field_re_at (label : string) (p : option ascii) (s : str) :
  ~ In "010" s ->
  (rmatch true (field_re label) (Cur p s []) <> []
   <-> starts true s (py label) = true).
Proof.
  intro Hnl. rewrite rmatch_nonempty by apply field_re_plain.
  unfold field_re. cbn [seqs matches]. split.
  - intros (c' & cm & H & _). apply matches_lits in H. simpl in H. tauto.
  - intro H.
    set (n := length (py label)).
    set (c1 := Cur (lastc p (firstn n s)) (skipn n s) []).
    set (c2 := Cur (lastc (prev c1) (rest c1)) [] []).
    set (c3 := Cur (prev c2) (rest c2) [(1, taken (rest c1) c2)]).
    exists c3, c1. split; [apply matches_lits; simpl; auto|].
    exists c1. split.
    { exists [], (rest c1). simpl. repeat split; auto. }
    exists c3. split.
    { exists c2. split; [|reflexivity].
      exists (rest c1), []. rewrite app_nil_r. repeat split; auto.
      - apply Forall_forall. intros x Hx. apply dot_accepts.
        intro; subst x. apply Hnl. simpl in Hx.
        rewrite <- (firstn_skipn n s). apply in_or_app. now right.
      - lia. }
    exists c3. split; [|reflexivity].
    unfold before. cbn [matches].
    destruct (proj2 (matches_alts true (others label) c3)) as (cm & Hcm).
    { left. reflexivity. }
    exists cm. split; [exact Hcm|].
    rewrite (@no_groups_caps true _ (alts_no_groups _) _ _ Hcm). reflexivity.
Qed.

Lemma lstrip_incl (x : ascii) (s : str) : In x (lstrip s) -> In x s.
Proof.
  induction s as [|y s IH]; simpl; [tauto|].
  destruct (isspace y); simpl; tauto.
Qed.

Lemma strip_incl (x : ascii) (s : str) : In x (strip s) -> In x s.
Proof.
  unfold strip, rstrip. intro H. apply in_rev, lstrip_incl, in_rev in H.
  now apply lstrip_incl.
Qed.

Lemma squeeze_no_newline (b : bool) (s : str) : ~ In "010" (squeeze b s).
Proof.
  revert b. induction s as [|x s IH]; intro b; simpl; [tauto|].
  destruct (isspace x) eqn:E.
  - destruct b; [apply IH|]. simpl. intros [H|H]; [discriminate|].
    exact (IH _ H).
  - simpl. intros [H|H]; [subst x; discriminate|]. exact (IH _ H).
Qed.

(** The text the patterns are run on has no line break. *)
Lemma normalize_no_newline (text_block : str) : ~ In "010" (normalize text_block).
Proof.
  unfold normalize. intro H. apply strip_incl in H.
  change (In "010" (normalize_whitespace text_block)) in H.
  rewrite normalize_whitespace_squeeze in H.
  exact (squeeze_no_newline _ _ H).
Qed.

(** C6, as the program has it: a label is matched as its literal text with
    the colon, wherever that text stands, also inside a longer word.  The
    pattern of a field finds a match in the normalised span exactly when the
    label occurs in it somewhere, compared without regard to case; and the
    boundary lookahead, which also ends the name, succeeds at a position
    exactly when the text after it is empty, a final line break, or starts
    with one of its labels.  What stands before the position is not looked
    at. *)
Theorem labels_match_as_substrings (label : string) (text_block : str) :
  (re_search true (field_re label) (normalize text_block) <> None
   <-> exists u v, normalize text_block = (u ++ v)%list
                   /\ starts true v (py label) = true)
  /\ forall ic ls p s cs,
       rmatch ic (before ls) (Cur p s cs) <> []
       <-> s = [] \/ s = ["010"]
           \/ exists l, In l ls /\ starts ic s (py l) = true.
Proof.
  split; [|intros; apply rmatch_before].
  unfold re_search. rewrite search_from_iff.
  pose proof (normalize_no_newline text_block) as Hnl.
  split; intros (u & v & E & H); exists u, v; (split; [exact E|]).
  - apply field_re_at in H; [exact H|].
    intro Hv. apply Hnl. rewrite E. apply in_or_app. now right.
  - apply field_re_at; [|exact H].
    intro Hv. apply Hnl. rewrite E. apply in_or_app. now right.
Qed.

(** C6, as stated, fails: the pattern of Location matches at "location:"
    right after the letter "e" of "Relocation:", and the extractor stores
    what follows as the Location. *)
Lemma label_matches_inside_a_word :
  ~ (forall label p s,
       In label labels ->
       rmatch true (field_re label) (Cur p s []) <> [] ->
       wordp p = false)
  /\ (exists r,
        extract_school_data first_seen (py "Relocation: Kasarani") = Ok r
        /\ dict_get "Location" r = Ok (py "Kasarani")).
Proof.
  split.
  - intro H.
    specialize (H "Location:"%string (Some "e") (py "location: Kasarani")).
    assert (K : wordp (Some "e") = false).
    { apply H; [simpl; auto|]. vm_compute. discriminate. }
    vm_compute in K. discriminate.
  - eexists. split; vm_compute; reflexivity.
Qed.

(** ** De-hyphenation *)

Lemma hyphen_prev (p q : option ascii) (s : str) :
  rmatch false hyphen_re (Cur p s []) = rmatch false hyphen_re (Cur q s []).
Proof. destruct s; reflexivity. Qed.

Lemma scan_hyphen_prev (s : str) :
  forall k g p q,
  scan false hyphen_re k g p s = scan false hyphen_re k g q s.
Proof.
  induction s as [|x s IH]; intros k g p q.
  - destruct k; [|reflexivity]. cbn [scan]. unfold at_pos.
    now rewrite (hyphen_prev p q).
  - destruct k; [|reflexivity]. cbn [scan]. unfold at_pos.
    now rewrite (hyphen_prev p q).
Qed.

Lemma dehyphenate_from (p : option ascii) (s : str) :
  flat_map (render [RGroup 1; RGroup 2]) (scan false hyphen_re 0 [] p s)
  = dehyphenate s.
Proof.
  unfold dehyphenate, re_sub, pieces. now rewrite (scan_hyphen_prev s 0 [] p None).
Qed.

Lemma hyphen_plain : plain hyphen_re = true.
Proof. reflexivity. Qed.

(** What a match of the pattern looks like. *)
Lemma hyphen_sound (p : option ascii) (s : str) (c' : cursor) :
  matches false hyphen_re (Cur p s []) c' ->
  exists a w1 w2 b t,
    s = (a :: "-" :: w1 ++ "010" :: w2 ++ b :: t)%list
    /\ isword a = true /\ isword b = true
    /\ Forall (fun x => isspace x = true) w1
    /\ Forall (fun x => isspace x = true) w2
    /\ c' = Cur (Some b) t [(2, [b]); (1, [a])].
Proof.
  unfold hyphen_re. cbn [seqs matches].
  intros (cm1 & (cm0 & (x0 & s0 & E0 & Hx0 & ->) & ->)
          & cm2 & (x1 & s1 & E1 & Hx1 & ->)
          & cm3 & (w1 & s2 & E2 & F1 & _ & _ & ->)
          & cm4 & (x2 & s3 & E3 & Hx2 & ->)
          & cm5 & (w2 & s4 & E4 & F2 & _ & _ & ->)
          & cm6 & (cm7 & (x3 & s5 & E5 & Hx3 & ->) & ->) & ->).
  cbn [rest prev caps] in *. subst.
  apply Ascii.eqb_eq in Hx1, Hx2. subst x1 x2.
  exists x0, w1, w2, x3, s5. repeat split; auto.
  f_equal. f_equal.
  - f_equal. apply (taken_app [x3] (Cur (Some x3) s5 _)).
  - f_equal. f_equal.
    match goal with |- taken ?s ?c = _ =>
      change (taken ([x0] ++ rest c) c = [x0]) end.
    apply taken_app.
Qed.

Lemma taken_one (x : ascii) (s : str) (p : option ascii)
  (cs : list (nat * str)) :
  taken (x :: s) (Cur p s cs) = [x].
Proof. apply (taken_app [x] (Cur p s cs)). Qed.

Lemma matches_group_chr (ic : bool) (n : nat) (a : atom) (p : option ascii)
  (x : ascii) (s : str) (cs : list (nat * str)) :
  atom_ok ic a x = true ->
  matches ic (Group n (Chr a)) (Cur p (x :: s) cs)
             (Cur (Some x) s ((n, [x]) :: cs)).
Proof.
  intro H. cbn [matches]. exists (Cur (Some x) s cs). split.
  - exists x, s. auto.
  - cbn [prev rest caps]. now rewrite taken_one.
Qed.

Lemma matches_chr (ic : bool) (a : atom) (p : option ascii)
  (x : ascii) (s : str) (cs : list (nat * str)) :
  atom_ok ic a x = true ->
  matches ic (Chr a) (Cur p (x :: s) cs) (Cur (Some x) s cs).
Proof. intro H. exists x, s. auto. Qed.

Lemma matches_star (ic : bool) (g : bool) (a : atom) (p : option ascii)
  (w s : str) (cs : list (nat * str)) :
  Forall (fun x => atom_ok ic a x = true) w ->
  matches ic (Rep g 0 None a) (Cur p (w ++ s) cs) (Cur (lastc p w) s cs).
Proof.
  intro H. exists w, s. cbn [rest prev caps within]. repeat split; auto. lia.
Qed.

Lemma hyphen_complete (p : option ascii) (a b : ascii) (w1 w2 t : str) :
  isword a = true -> isword b = true ->
  Forall (fun x => isspace x = true) w1 ->
  Forall (fun x => isspace x = true) w2 ->
  matches false hyphen_re
    (Cur p (a :: "-" :: w1 ++ "010" :: w2 ++ b :: t) [])
    (Cur (Some b) t [(2, [b]); (1, [a])]).
Proof.
  intros Ha Hb F1 F2. unfold hyphen_re. cbn [seqs matches].
  eexists. split; [apply (@matches_group_chr false 1 wordc); exact Ha|].
  eexists. split; [apply (@matches_chr false (Lit "-")); reflexivity|].
  eexists. split; [apply (@matches_star false true ws); exact F1|].
  eexists. split; [apply (@matches_chr false (Lit "010")); reflexivity|].
  eexists. split; [apply (@matches_star false true ws); exact F2|].
  eexists. split; [apply (@matches_group_chr false 2 wordc); exact Hb|].
  reflexivity.
Qed.

Lemma split_unique (P : ascii -> bool) (u v r r' : str) (x y : ascii) :
  Forall (fun z => P z = true) u -> P x = false ->
  Forall (fun z => P z = true) v -> P y = false ->
  u ++ x :: r = v ++ y :: r' ->
  u = v /\ x = y /\ r = r'.
Proof.
  intros Fu Hx. revert v. induction Fu as [|a u Ha _ IH]; intros v Fv Hy E.
  - destruct Fv as [|b v Hb _]; simpl in E.
    + inversion E. auto.
    + inversion E; subst. congruence.
  - destruct Fv as [|b v Hb Fv]; simpl in E.
    + inversion E; subst. congruence.
    + inversion E; subst. destruct (IH v Fv Hy H1) as (-> & -> & ->). auto.
Qed.

Lemma regroup (u v r : str) (n x : ascii) :
  u ++ n :: v ++ x :: r = (u ++ n :: v) ++ x :: r.
Proof. rewrite <- app_assoc. reflexivity. Qed.

Lemma Forall_space_app (w1 w2 : str) :
  Forall (fun x => isspace x = true) w1 ->
  Forall (fun x => isspace x = true) w2 ->
  Forall (fun x => isspace x = true) (w1 ++ "010" :: w2).
Proof.
  intros F1 F2. apply Forall_app. split; [exact F1|]. constructor; auto.
Qed.

(** The pattern at the start of [a-], whitespace with a line break, [b]. *)
Lemma hyphen_hit (p : option ascii) (a b : ascii) (w1 w2 t : str) :
  isword a = true -> isword b = true ->
  Forall (fun x => isspace x = true) w1 ->
  Forall (fun x => isspace x = true) w2 ->
  exists l,
    rmatch false hyphen_re (Cur p (a :: "-" :: w1 ++ "010" :: w2 ++ b :: t) [])
    = Cur (Some b) t [(2, [b]); (1, [a])] :: l.
Proof.
  intros Ha Hb F1 F2.
  pose proof (@hyphen_complete p a b w1 w2 t Ha Hb F1 F2) as Hc.
  apply (rmatch_complete _ _ hyphen_plain) in Hc.
  destruct (rmatch false hyphen_re _) as [|c1 l] eqn:E; [destruct Hc|].
  exists l. f_equal.
  assert (H1 : In c1 (c1 :: l)) by now left.
  rewrite <- E in H1. apply rmatch_sound, hyphen_sound in H1.
  destruct H1 as (a' & v1 & v2 & b' & t' & Es & Ha' & Hb' & G1 & G2 & ->).
  inversion Es as [[Ea Ew]]. subst a'.
  rewrite !regroup in Ew.
  apply (@split_unique isspace) in Ew.
  - destruct Ew as (_ & -> & ->). reflexivity.
  - now apply Forall_space_app.
  - destruct (isspace b) eqn:Eb; [|reflexivity].
    apply space_not_word in Eb. congruence.
  - now apply Forall_space_app.
  - destruct (isspace b') eqn:Eb; [|reflexivity].
    apply space_not_word in Eb. congruence.
Qed.

(** No match starts at a character that is not a word character. *)
Lemma hyphen_needs_word (p : option ascii) (x : ascii) (s : str) :
  isword x = false -> rmatch false hyphen_re (Cur p (x :: s) []) = [].
Proof.
  intro H. unfold hyphen_re. cbn [seqs rmatch rest atom_ok wordc].
  rewrite H. reflexivity.
Qed.

(** No match starts before a hyphen and whitespace that no word character
    follows. *)
Lemma hyphen_miss (p : option ascii) (a c : ascii) (w t : str) :
  Forall (fun x => isspace x = true) w ->
  isword c = false -> isspace c = false ->
  rmatch false hyphen_re (Cur p (a :: "-" :: w ++ c :: t) []) = [].
Proof.
  intros F Hw Hs.
  destruct (rmatch false hyphen_re _) as [|c1 l] eqn:E; [reflexivity|].
  assert (H1 : In c1 (c1 :: l)) by now left.
  rewrite <- E in H1. apply rmatch_sound, hyphen_sound in H1.
  destruct H1 as (a' & v1 & v2 & b' & t' & Es & Ha' & Hb' & G1 & G2 & ->).
  inversion Es as [[Ea Ew]]. subst a'.
  rewrite (regroup v1) in Ew.
  apply (@split_unique isspace) in Ew.
  - destruct Ew as (_ & -> & _). congruence.
  - exact F.
  - exact Hs.
  - now apply Forall_space_app.
  - destruct (isspace b') eqn:Eb; [|reflexivity].
    apply space_not_word in Eb. congruence.
Qed.

Lemma dehyphenate_skips (u : str) :
  Forall (fun x => isword x = false) u ->
  forall p s,
  flat_map (render [RGroup 1; RGroup 2]) (scan false hyphen_re 0 [] p (u ++ s))
  = u ++ flat_map (render [RGroup 1; RGroup 2])
                  (scan false hyphen_re 0 [] (lastc p u) s).
Proof.
  induction 1 as [|x u Hx _ IH]; intros p s; [reflexivity|]. simpl app.
  rewrite sub_miss by (apply hyphen_needs_word; exact Hx).
  now rewrite IH.
Qed.

(** No match without a line break. *)
Lemma hyphen_needs_newline (p : option ascii) (s : str) :
  ~ In "010" s -> rmatch false hyphen_re (Cur p s []) = [].
Proof.
  intro N.
  destruct (rmatch false hyphen_re _) as [|c1 l] eqn:E; [reflexivity|].
  assert (H1 : In c1 (c1 :: l)) by now left.
  rewrite <- E in H1. apply rmatch_sound, hyphen_sound in H1.
  destruct H1 as (a & v1 & v2 & b & t & -> & _). exfalso. apply N.
  right. right. apply in_or_app. right. now left.
Qed.

Lemma dehyphenate_no_newline (s : str) :
  ~ In "010" s ->
  forall p,
  flat_map (render [RGroup 1; RGroup 2]) (scan false hyphen_re 0 [] p s) = s.
Proof.
  induction s as [|x s IH]; intros N p; [reflexivity|].
  rewrite sub_miss by (apply hyphen_needs_newline; exact N).
  rewrite IH; [reflexivity|]. intro H. apply N. now right.
Qed.

(** The pattern at the start of the text. *)
Lemma dehyphenate_hit (a b : ascii) (w1 w2 t : str) :
  isword a = true -> isword b = true ->
  Forall (fun x => isspace x = true) w1 ->
  Forall (fun x => isspace x = true) w2 ->
  dehyphenate (a :: "-" :: w1 ++ "010" :: w2 ++ b :: t)
  = a :: b :: dehyphenate t.
Proof.
  intros Ha Hb F1 F2.
  destruct (@hyphen_hit None a b w1 w2 t Ha Hb F1 F2) as (l & Hl).
  unfold dehyphenate at 1. unfold re_sub, pieces.
  replace (a :: "-" :: w1 ++ "010" :: w2 ++ b :: t)
    with (a :: ("-" :: w1 ++ "010" :: w2 ++ [b]) ++ t) in *
    by (simpl; rewrite <- !app_assoc; simpl; rewrite <- !app_assoc;
        reflexivity).
  erewrite sub_hit; [|exact Hl|reflexivity].
  rewrite dehyphenate_from. reflexivity.
Qed.

(** Where the pattern does not start, the character is kept. *)
Lemma dehyphenate_step (x : ascii) (s : str) :
  (forall (a b : ascii) (w1 w2 t : str),
     x :: s = a :: "-" :: w1 ++ "010" :: w2 ++ b :: t ->
     isword a = true -> isword b = true ->
     Forall (fun y => isspace y = true) w1 ->
     Forall (fun y => isspace y = true) w2 -> False) ->
  dehyphenate (x :: s) = x :: dehyphenate s.
Proof.
  intro N. unfold dehyphenate at 1. unfold re_sub, pieces.
  rewrite sub_miss; [now rewrite dehyphenate_from|].
  destruct (rmatch false hyphen_re _) as [|c1 l] eqn:E; [reflexivity|].
  assert (H1 : In c1 (c1 :: l)) by now left.
  rewrite <- E in H1. apply rmatch_sound, hyphen_sound in H1.
  destruct H1 as (a & v1 & v2 & b & t & Es & Ha & Hb & G1 & G2 & _).
  destruct (N a b v1 v2 t Es Ha Hb G1 G2).
Qed.

Lemma dehyphenate_left (a c : ascii) (w t : str) :
  Forall (fun x => isspace x = true) w ->
  isword c = false -> isspace c = false ->
  dehyphenate (a :: "-" :: w ++ c :: t)
  = a :: "-" :: w ++ c :: dehyphenate t.
Proof.
  intros F Hw Hs.
  unfold dehyphenate at 1. unfold re_sub, pieces.
  rewrite sub_miss by (apply hyphen_miss; assumption).
  f_equal.
  replace ("-" :: w ++ c :: t) with (("-" :: w ++ [c]) ++ t)
    by (simpl; rewrite <- app_assoc; reflexivity).
  rewrite dehyphenate_skips.
  - rewrite dehyphenate_from. simpl. rewrite <- app_assoc. reflexivity.
  - constructor; [reflexivity|]. apply Forall_app. split.
    + eapply Forall_impl; [|exact F]. intros x. apply space_not_word.
    + constructor; [exact Hw|constructor].
Qed.

(** A hyphen cannot stand in the whitespace of a match, nor end it. *)
Lemma hyphen_not_in_gap (R w1 w2 t : str) (b : ascii) :
  Forall (fun y => isspace y = true) w1 ->
  Forall (fun y => isspace y = true) w2 ->
  isword b = true ->
  "-" :: R = w1 ++ "010" :: w2 ++ b :: t -> False.
Proof.
  intros F1 F2 Hb E. destruct w1 as [|y w1]; [discriminate|].
  inversion E; subst. inversion F1; subst. discriminate.
Qed.

(** Before the first line break no match starts ahead of [a-]. *)
Lemma no_break_before (u : str) :
  ~ In "010" u ->
  forall (w1 w2 t R : str) (a b : ascii),
  Forall (fun y => isspace y = true) w1 ->
  Forall (fun y => isspace y = true) w2 ->
  isword b = true ->
  u ++ a :: "-" :: R = w1 ++ "010" :: w2 ++ b :: t -> False.
Proof.
  induction u as [|c u IH]; intros N w1 w2 t R a b F1 F2 Hb E.
  - destruct w1 as [|y w1]; cbn [app] in E.
    + inversion E; subst. destruct w2 as [|z w2]; cbn [app] in *.
      * inversion H1; subst. discriminate.
      * inversion H1; subst. inversion F2; subst. discriminate.
    + inversion E; subst. inversion F1; subst.
      eapply hyphen_not_in_gap; [| |exact Hb|exact H1]; assumption.
  - destruct w1 as [|y w1]; cbn [app] in E.
    + inversion E; subst. apply N. now left.
    + inversion E; subst. inversion F1; subst.
      eapply (IH (fun H => N (or_intror H))); [| |exact Hb|exact H1];
        assumption.
Qed.

(** The text before the first line break is kept up to a character that a
    hyphen follows. *)
Lemma dehyphenate_prefix (u : str) (a : ascii) (R : str) :
  ~ In "010" u ->
  dehyphenate (u ++ a :: "-" :: R) = u ++ dehyphenate (a :: "-" :: R).
Proof.
  induction u as [|x u IH]; intro N; [reflexivity|]. cbn [app].
  rewrite dehyphenate_step.
  - f_equal. apply IH. intro H. apply N. now right.
  - intros a' b w1 w2 t E Ha Hb F1 F2. inversion E as [[Ex Er]].
    destruct u as [|h u]; cbn [app] in Er.
    + inversion Er; subst.
      eapply hyphen_not_in_gap; [| |exact Hb|exact H1]; assumption.
    + inversion Er; subst.
      eapply (@no_break_before u (fun H => N (or_intror (or_intror H))));
        [| |exact Hb|exact H1]; assumption.
Qed.

(** C10, as the program has it. The text is read from left to right. The
    first [a-], whitespace holding a line break, and a word character [b]
    of any kind (a capital, a digit or an underscore as well as a small
    letter) after a stretch [u] without line break are rejoined into [ab],
    wherever they stand and whatever whitespace stands around the line
    break, and the reading goes on after [b]; a character at which no such
    sequence starts is kept, and the reading goes on with the next one; a
    hyphen followed by whitespace and then by a character that is neither a
    word character nor whitespace is left as it is; and so is a text
    without a line break. *)
Theorem dehyphenate_rejoins_any_word_character :
  (forall (u : str) (a b : ascii) (w1 w2 t : str),
     ~ In "010" u ->
     isword a = true -> isword b = true ->
     Forall (fun x => isspace x = true) w1 ->
     Forall (fun x => isspace x = true) w2 ->
     dehyphenate (u ++ a :: "-" :: w1 ++ "010" :: w2 ++ b :: t)
     = u ++ a :: b :: dehyphenate t)
  /\ (forall (x : ascii) (s : str),
        (forall (a b : ascii) (w1 w2 t : str),
           x :: s = a :: "-" :: w1 ++ "010" :: w2 ++ b :: t ->
           isword a = true -> isword b = true ->
           Forall (fun y => isspace y = true) w1 ->
           Forall (fun y => isspace y = true) w2 -> False) ->
        dehyphenate (x :: s) = x :: dehyphenate s)
  /\ (forall (u : str) (a c : ascii) (w t : str),
        ~ In "010" u ->
        Forall (fun x => isspace x = true) w ->
        isword c = false -> isspace c = false ->
        dehyphenate (u ++ a :: "-" :: w ++ c :: t)
        = u ++ a :: "-" :: w ++ c :: dehyphenate t)
  /\ (forall t : str, ~ In "010" t -> dehyphenate t = t).
Proof.
  split; [|split; [|split]].
  - intros u a b w1 w2 t N Ha Hb F1 F2.
    rewrite dehyphenate_prefix by exact N.
    now rewrite dehyphenate_hit.
  - exact dehyphenate_step.
  - intros u a c w t N F Hw Hs.
    rewrite dehyphenate_prefix by exact N.
    now rewrite dehyphenate_left.
  - intros t N. apply dehyphenate_no_newline. exact N.
Qed.

(** C10, as stated, fails: a hyphen and a line break before a capital
    letter, which is not a lowercase letter, are not left unchanged: the two
    halves are rejoined all the same. *)
Lemma dehyphenate_before_a_capital :
  islower "S" = false
  /\ dehyphenate ("S" :: "u" :: "b" :: "-" :: "010" :: py "Saharan")
     = py "SubSaharan"
  /\ dehyphenate ("S" :: "u" :: "b" :: "-" :: "010" :: py "Saharan")
     <> "S" :: "u" :: "b" :: "-" :: "010" :: py "Saharan".
Proof.
  split; [reflexivity|]. split; [vm_compute; reflexivity|].
  vm_compute. discriminate.
Qed.

Lemma dehyphenate_rejoins_witness :
  dehyphenate (py "Alpha Se" ++ "c" :: "-" :: [" "] ++ "010" :: []
                 ++ "o" :: py "ndary")
  = py "Alpha Se" ++ "c" :: "o" :: dehyphenate (py "ndary")
  /\ dehyphenate (py "Su" ++ "b" :: "-" :: [] ++ "010" :: []
                    ++ "S" :: py "aharan")
     = py "Su" ++ "b" :: "S" :: dehyphenate (py "aharan")
  /\ dehyphenate ("a" :: "b" :: "-" :: "010" :: py "cd")
     = "a" :: dehyphenate ("b" :: "-" :: "010" :: py "cd")
  /\ dehyphenate (py "Su" ++ "b" :: "-" :: ["010"] ++ "(" :: py "x")
     = py "Su" ++ "b" :: "-" :: ["010"] ++ "(" :: dehyphenate (py "x")
  /\ dehyphenate (py "well-known") = py "well-known".
Proof.
  destruct dehyphenate_rejoins_any_word_character as (H1 & H2 & H3 & H4).
  split; [|split; [|split; [|split]]].
  - apply H1; try reflexivity; [|repeat constructor..].
    vm_compute. intuition discriminate.
  - apply H1; try reflexivity; [|repeat constructor..].
    vm_compute. intuition discriminate.
  - apply H2. intros a b w1 w2 t E. discriminate E.
  - apply H3; try reflexivity; [|repeat constructor].
    vm_compute. intuition discriminate.
  - apply H4. vm_compute. intuition discriminate.
Defined.

End MainFacts.

(** * More about the Python layer *)

Module PyMore.
Import Py Spec PyFacts.

Local Open Scope list_scope.

(** ** The pieces of a subject put together give the subject back *)

Lemma taken_prefix (s : str) (c' : cursor) :
  taken s c' ++ skipn (length (taken s c')) s = s.
Proof.
  unfold taken. set (j := length s - length (rest c')).
  rewrite length_firstn.
  destruct (Nat.min_dec j (length s)) as [E|E]; rewrite E.
  - apply firstn_skipn.
  - rewrite skipn_all, app_nil_r. apply firstn_all2. lia.
Qed.

Lemma at_pos_text (ic : bool) (r : regex) (p : option ascii) (s : str)
  (ms : list match_obj) (n : nat) :
  at_pos ic r p s = (ms, n) ->
  flat_map piece_text (hits_between ms) ++ skipn n s = s.
Proof.
  unfold at_pos.
  destruct (rmatch ic r (Cur p s [])) as [|c1 l].
  - intro H. inversion H. reflexivity.
  - destruct (taken s c1) as [|x w] eqn:T.
    + destruct (filter (nonempty_at s) (c1 :: l)) as [|c2 l2];
        intro H; inversion H; subst; clear H.
      * cbn [hits_between flat_map piece_text whole match_of app skipn].
        now rewrite T.
      * cbn [hits_between flat_map piece_text whole match_of app].
        rewrite T, app_nil_r. cbn [app]. apply taken_prefix.
    + intro H. inversion H; subst; clear H.
      cbn [hits_between flat_map piece_text whole match_of app].
      rewrite app_nil_r. change (S (length w)) with (length (x :: w)).
      rewrite <- T. apply taken_prefix.
Qed.

Lemma scan_text (ic : bool) (r : regex) (s : str) :
  forall k g p,
  flat_map piece_text (scan ic r k g p s) = rev g ++ skipn k s.
Proof.
  induction s as [|x s IH]; intros k g p.
  - destruct k; cbn [scan]; [|reflexivity].
    destruct (at_pos ic r p []) as [[|m ms] n] eqn:E; [reflexivity|].
    apply at_pos_text in E. rewrite skipn_nil, app_nil_r in E.
    set (hb := hits_between (m :: ms)) in *.
    cbn [flat_map piece_text]. rewrite flat_map_app, E. reflexivity.
  - destruct k; cbn [scan]; [|apply IH].
    destruct (at_pos ic r p (x :: s)) as [[|m ms] n] eqn:E.
    + rewrite IH. cbn. rewrite <- app_assoc. reflexivity.
    + apply at_pos_text in E.
      set (hb := hits_between (m :: ms)) in *.
      cbn [flat_map piece_text]. rewrite flat_map_app.
      destruct n; rewrite IH; f_equal; exact E.
Qed.

Lemma pieces_text (ic : bool) (r : regex) (s : str) :
  flat_map piece_text (pieces ic r s) = s.
Proof. unfold pieces. now rewrite scan_text. Qed.

(** A lookahead takes no text. *)
Lemma ahead_hits_empty (ic : bool) (r : regex) (s : str) (m : match_obj) :
  In (Hit m) (pieces ic (Ahead r) s) -> whole m = [].
Proof.
  intro H. unfold pieces in H.
  destruct (scan_hits _ _ _ _ _ _ _ H) as (p0 & s0 & c' & Hin & ->).
  simpl in Hin. destruct (rmatch ic r (Cur p0 s0 [])); [destruct Hin|].
  destruct Hin as [<-|[]]. unfold match_of, taken. simpl.
  now rewrite Nat.sub_diag.
Qed.

Lemma concat_unmatched (l : list piece) :
  (forall m, In (Hit m) l -> whole m = []) ->
  concat (flat_map unmatched l) = flat_map piece_text l.
Proof.
  induction l as [|[t|m] l IH]; intro H; [reflexivity| |].
  - cbn. rewrite IH; [reflexivity|]. intros m Hm. apply H. now right.
  - cbn. rewrite (H m) by now left. apply IH. intros m' Hm. apply H. now right.
Qed.

(** Splitting at a lookahead loses nothing: the parts joined are the
    subject. *)
Lemma split_ahead_concat (ic : bool) (r : regex) (s : str) :
  concat (re_split ic (Ahead r) s) = s.
Proof.
  unfold re_split. rewrite concat_unmatched by apply ahead_hits_empty.
  apply pieces_text.
Qed.

(** One step of the loop at a place where a lookahead succeeds. *)
Lemma scan_ahead_hit (ic : bool) (r : regex) (g : str) (p : option ascii)
  (x : ascii) (s : str) :
  rmatch ic (Ahead r) (Cur p (x :: s) []) <> [] ->
  exists m,
    scan ic (Ahead r) 0 g p (x :: s)
    = Text (rev g) :: Hit m :: scan ic (Ahead r) 0 [x] (Some x) s.
Proof.
  intro H. cbn [scan]. unfold at_pos.
  destruct (rmatch ic (Ahead r) (Cur p (x :: s) [])) as [|c1 l] eqn:E;
    [tauto|].
  assert (R : c1 :: l = [Cur p (x :: s) (caps c1)]).
  { simpl in E. destruct (rmatch ic r _); [discriminate|].
    inversion E. reflexivity. }
  destruct c1 as [p1 s1 cs1]. cbn [caps] in R. inversion R; subst.
  unfold taken, nonempty_at. cbn [rest filter].
  rewrite Nat.sub_diag, Nat.eqb_refl. cbn [firstn negb].
  eexists. reflexivity.
Qed.

Lemma collect_Forall2 {A B : Type} (f : A -> result B) (l : list A) :
  forall bs, collect l f = Ok bs -> Forall2 (fun a b => f a = Ok b) l bs.
Proof.
  induction l as [|a l IH]; simpl; intros bs H.
  - inversion H. constructor.
  - destruct (f a) as [b|e] eqn:E; [|discriminate]. simpl in H.
    destruct (collect l f) as [bs0|e]; [|discriminate]. simpl in H.
    inversion H; subst. constructor; auto.
Qed.

Lemma index_app_here {A : Type} (pre l : list A) (a : A) :
  index (pre ++ a :: l) (length pre) = Ok a.
Proof.
  unfold index. rewrite nth_error_app2 by lia. now rewrite Nat.sub_diag.
Qed.

(** What [re.findall] returns stands in the subject. *)
Lemma findall_substring (ic : bool) (r : regex) (s w : str) :
  In w (re_findall ic r s) -> exists pre post, s = pre ++ w ++ post.
Proof.
  unfold re_findall. intro H. apply in_flat_map in H.
  destruct H as ([t|m] & Hq & Hw); [destruct Hw|].
  destruct Hw as [<-|[]].
  apply in_split in Hq. destruct Hq as (l1 & l2 & E).
  pose proof (pieces_text ic r s) as T. rewrite E in T.
  rewrite flat_map_app in T. cbn [flat_map piece_text] in T.
  exists (flat_map piece_text l1), (flat_map piece_text l2). now rewrite T.
Qed.

End PyMore.

(** * More about the program *)

Module MainMore.
Import Py Main Spec PyFacts MainFacts PyMore.

Local Open Scope string_scope.
Local Open Scope char_scope.
Local Open Scope list_scope.
Local Open Scope nat_scope.

(** ** The blocks of [process_pdf] *)

Lemma anchor_needs_capital (p : option ascii) (x : ascii) (s : str) :
  between 65 90 x = false ->
  rmatch false anchor_re (Cur p (x :: s) []) = [].
Proof.
  intro H. unfold anchor_re, anchor_body. cbn [seqs rmatch].
  destruct (xorb _ _); cbn [flat_map rest atom_ok app];
    [rewrite H|]; reflexivity.
Qed.

Lemma anchor_none_at_end (p : option ascii) :
  rmatch false anchor_re (Cur p [] []) = [].
Proof.
  unfold anchor_re, anchor_body. cbn [seqs rmatch].
  destruct (xorb _ _); reflexivity.
Qed.

Lemma blocks_start (s : str) :
  forall g p b,
  In b (tl (flat_map unmatched (scan false anchor_re 0 g p s))) ->
  exists x r, b = x :: r /\ between 65 90 x = true.
Proof.
  induction s as [|x s IH]; intros g p b H.
  - cbn [scan] in H. unfold at_pos in H. rewrite anchor_none_at_end in H.
    destruct H.
  - destruct (rmatch false anchor_re (Cur p (x :: s) [])) as [|c1 l] eqn:E.
    + rewrite (@scan_miss false anchor_re g p x s E) in H. eauto.
    + destruct (@scan_ahead_hit false anchor_body g p x s) as (m & Hm).
      { fold anchor_re. rewrite E. discriminate. }
      fold anchor_re in Hm. rewrite Hm in H. cbn [flat_map unmatched app tl] in H.
      destruct (scan_gap false anchor_re s 0 (Some x)) as (t & q & Hq).
      pose proof (IH [x] (Some x) b) as IHx.
      rewrite (Hq [x]) in H, IHx. cbn [flat_map unmatched app tl rev] in H, IHx.
      destruct H as [<-|H]; [|auto].
      exists x, t. split; [reflexivity|].
      destruct (between 65 90 x) eqn:B; [reflexivity|].
      rewrite anchor_needs_capital in E by exact B. discriminate.
Qed.

(** X1: [re.split] at the anchor lookahead loses no text: the first part and
    the blocks kept by [[1:]], put together, are the text. *)
Theorem school_blocks_partition (full_text : str) :
  exists header,
    re_split false anchor_re full_text = header :: school_blocks full_text
    /\ full_text = header ++ concat (school_blocks full_text).
Proof.
  unfold school_blocks.
  pose proof (split_ahead_concat false anchor_body full_text) as H.
  fold anchor_re in H.
  pose proof (split_counts false anchor_re full_text) as L.
  destruct (re_split false anchor_re full_text) as [|h bs];
    [simpl in L; lia|].
  exists h. simpl in *. auto.
Qed.

(** X2: every block starts where the anchor pattern can start: it is not
    empty and its first character is a capital letter A-Z. *)
Theorem school_blocks_start_with_capital (full_text b : str) :
  In b (school_blocks full_text) ->
  exists x r, b = x :: r /\ between 65 90 x = true.
Proof. apply blocks_start. Qed.

Lemma school_blocks_start_with_capital_witness :
  In (py "Boys ") (school_blocks two_schools)
  /\ exists x r, py "Boys " = x :: r /\ between 65 90 x = true.
Proof.
  assert (H : In (py "Boys ") (school_blocks two_schools))
    by (vm_compute; auto).
  split; [exact H|].
  exact (@school_blocks_start_with_capital two_schools (py "Boys ") H).
Defined.

(** ** The loop over the blocks *)

Section Pairs.

Variable f : str -> result dict.

Lemma half_succ (n : nat) : (S (S n) + 1) / 2 = S ((n + 1) / 2).
Proof.
  replace (S (S n) + 1) with (n + 1 + 1 * 2) by lia.
  rewrite Nat.div_add by lia. lia.
Qed.

Lemma collect_by_index (n : nat) :
  forall blocks pre, length blocks <= n ->
  collect (map (fun i => length pre + 2 * i) (seq 0 ((length blocks + 1) / 2)))
          (by_index f (pre ++ blocks))
  = collect (pair_up blocks) f.
Proof.
  induction n as [|n IH]; intros blocks pre Hn.
  - destruct blocks; [reflexivity|simpl in Hn; lia].
  - destruct blocks as [|b1 [|b2 rest]]; [reflexivity| |].
    + cbn [length Nat.add Nat.div Nat.divmod fst seq map collect pair_up].
      rewrite Nat.mul_0_r, Nat.add_0_r. unfold by_index.
      rewrite length_app. cbn [length].
      destruct (Nat.ltb_spec (length pre + 1) (length pre + 1)); [lia|].
      rewrite index_app_here. reflexivity.
    + cbn [length]. rewrite half_succ. cbn [seq map collect pair_up].
      rewrite Nat.mul_0_r, Nat.add_0_r.
      replace (by_index f (pre ++ b1 :: b2 :: rest) (length pre))
        with (f (b1 ++ b2)).
      * destruct (f (b1 ++ b2)) as [r|e]; [|reflexivity]. cbn [bind].
        rewrite <- seq_shift, map_map.
        specialize (IH rest (pre ++ [b1; b2])).
        rewrite <- app_assoc in IH. cbn [app] in IH.
        rewrite <- IH by (simpl in Hn; lia). f_equal. f_equal.
        apply map_ext. intro i. rewrite length_app. simpl. lia.
      * unfold by_index. rewrite length_app. cbn [length].
        destruct (Nat.ltb_spec (length pre + 1) (length pre + S (S (length rest))));
          [|lia].
        rewrite index_app_here.
        replace (pre ++ b1 :: b2 :: rest) with ((pre ++ [b1]) ++ b2 :: rest)
          by (rewrite <- app_assoc; reflexivity).
        replace (length pre + 1) with (length (pre ++ [b1]))
          by (rewrite length_app; reflexivity).
        rewrite index_app_here. reflexivity.
Qed.

End Pairs.

(** X3: [process_pdf]'s loop by index is the pairing of neighbouring
    blocks: it raises nothing, and the records are, in order, those of
    blocks 0+1, 2+3, ..., a last odd block alone. *)
Theorem process_text_by_pairs (hash : set_impl) (full_text : str) :
  process_text hash full_text
  = collect (pair_up (school_blocks
                        (normalize_whitespace (dehyphenate full_text))))
            (extract_school_data hash)
  /\ exists schools,
       process_text hash full_text = Ok schools
       /\ Forall2 (fun block r => extract_school_data hash block = Ok r)
                  (pair_up (school_blocks
                              (normalize_whitespace (dehyphenate full_text))))
                  schools.
Proof.
  assert (E : process_text hash full_text
              = collect (pair_up (school_blocks
                                    (normalize_whitespace
                                       (dehyphenate full_text))))
                        (extract_school_data hash)).
  { unfold process_text.
    set (blocks := school_blocks (normalize_whitespace (dehyphenate full_text))).
    rewrite <- (@collect_by_index (extract_school_data hash) (length blocks)
                  blocks [] (le_n _)).
    unfold range. replace (length blocks - 0 + 2 - 1) with (length blocks + 1)
      by lia.
    reflexivity. }
  split; [exact E|].
  destruct (process_text_pairs_blocks hash full_text) as (schools & Hs & _).
  exists schools. split; [exact Hs|]. apply collect_Forall2.
  rewrite <- E. exact Hs.
Qed.

(** X4: [process_pdf] returns the empty list exactly when the anchor
    lookahead succeeds nowhere in the pre-processed text; in particular for
    no pages at all. *)
Theorem process_pdf_empty_iff (hash : set_impl) (pages : list str) :
  (process_pdf hash pages = []
   <-> re_findall false anchor_re
         (normalize_whitespace (dehyphenate (join ["010"] pages))) = [])
  /\ process_pdf hash [] = [].
Proof.
  split; [|reflexivity].
  unfold process_pdf.
  destruct (process_text_pairs_blocks hash (join ["010"] pages))
    as (schools & -> & L).
  rewrite school_blocks_count in L.
  set (hits := re_findall false anchor_re _) in *.
  split; intro H.
  - rewrite H in L. cbn [length] in L. symmetry in L.
    apply Nat.div_small_iff in L; [|lia].
    destruct hits as [|h hs]; [reflexivity|]. cbn [length] in L. lia.
  - rewrite H in L. destruct schools; [reflexivity|discriminate].
Qed.

(** ** What the normalisations keep *)

Lemma squeeze_keeps_text (b : bool) (s : str) :
  filter (fun c => negb (isspace c)) (squeeze b s)
  = filter (fun c => negb (isspace c)) s.
Proof.
  revert b. induction s as [|x s IH]; intro b; [reflexivity|]. simpl.
  destruct (isspace x) eqn:E; simpl.
  - destruct b; simpl; apply IH.
  - rewrite E. simpl. now rewrite IH.
Qed.

Lemma squeeze_only_spaces (b : bool) (s : str) (x : ascii) :
  In x (squeeze b s) -> isspace x = true -> x = " ".
Proof.
  revert b. induction s as [|y s IH]; intros b H Hx; [destruct H|].
  simpl in H. destruct (isspace y) eqn:E.
  - destruct b; [eauto|]. destruct H as [<-|H]; [reflexivity|eauto].
  - destruct H as [<-|H]; [congruence|eauto].
Qed.

Lemma squeeze_true_head (s : str) (x : ascii) (r : str) :
  squeeze true s = x :: r -> isspace x = false.
Proof.
  induction s as [|y s IH]; simpl; [discriminate|].
  destruct (isspace y) eqn:E; [exact IH|]. intro H. inversion H. now subst.
Qed.

Lemma squeeze_no_double (s : str) :
  forall b u v, squeeze b s <> u ++ " " :: " " :: v.
Proof.
  induction s as [|y s IH]; intros b u v H; simpl in H.
  - destruct u; discriminate.
  - destruct (isspace y) eqn:E.
    + destruct b; [exact (IH _ _ _ H)|].
      destruct u as [|z u]; simpl in H; inversion H.
      * apply squeeze_true_head in H1. discriminate.
      * exact (IH _ _ _ H2).
    + destruct u as [|z u]; simpl in H; inversion H; subst.
      * discriminate.
      * exact (IH _ _ _ H2).
Qed.

(** X5: collapsing whitespace touches nothing else: the characters that are
    not whitespace come out as they went in, in the same order; the only
    whitespace character left is the space, and never two in a row. *)
Theorem normalize_whitespace_normal_form (t : str) :
  filter (fun c => negb (isspace c)) (normalize_whitespace t)
  = filter (fun c => negb (isspace c)) t
  /\ (forall x, In x (normalize_whitespace t) -> isspace x = true -> x = " ")
  /\ (forall u v, normalize_whitespace t <> u ++ " " :: " " :: v).
Proof.
  rewrite normalize_whitespace_squeeze. split; [|split].
  - apply squeeze_keeps_text.
  - apply squeeze_only_spaces.
  - apply squeeze_no_double.
Qed.

Lemma strip_head (s : str) (x : ascii) (r : str) :
  strip s = x :: r -> isspace x = false.
Proof.
  unfold strip.
  destruct (lstrip_head s) as [->|(y & r0 & -> & Hy)]; [discriminate|].
  destruct (@rstrip_keeps_head y r0 Hy) as (r' & ->). intro H.
  inversion H. now subst.
Qed.

Lemma strip_last (s u : str) (x : ascii) :
  strip s = u ++ [x] -> isspace x = false.
Proof.
  unfold strip, rstrip. intro H. apply (f_equal (@rev ascii)) in H.
  rewrite rev_involutive, rev_app_distr in H. simpl in H.
  destruct (lstrip_head (rev (lstrip s))) as [E|(y & r & E & Hy)];
    rewrite E in H; [discriminate|]. inversion H. now subst.
Qed.

Lemma lstrip_keeps_text (s : str) :
  filter (fun c => negb (isspace c)) (lstrip s)
  = filter (fun c => negb (isspace c)) s.
Proof.
  induction s as [|x s IH]; [reflexivity|]. simpl.
  destruct (isspace x) eqn:E; simpl; [exact IH|]. now rewrite E.
Qed.

Lemma strip_keeps_text (s : str) :
  filter (fun c => negb (isspace c)) (strip s)
  = filter (fun c => negb (isspace c)) s.
Proof.
  unfold strip, rstrip.
  rewrite <- (rev_involutive (filter _ (rev _))).
  rewrite <- filter_rev, rev_involutive, lstrip_keeps_text.
  rewrite filter_rev, rev_involutive. apply lstrip_keeps_text.
Qed.

(** X6: the text the extractor works on, [re.sub(r'\s+', ' ', t).strip()],
    keeps every character that is not whitespace, in order, and neither
    starts nor ends with whitespace. *)
Theorem normalize_is_trimmed (t : str) :
  filter (fun c => negb (isspace c)) (normalize t)
  = filter (fun c => negb (isspace c)) t
  /\ (forall x r, normalize t = x :: r -> isspace x = false)
  /\ (forall u x, normalize t = u ++ [x] -> isspace x = false).
Proof.
  split; [|split].
  - unfold normalize. rewrite strip_keeps_text.
    change (re_sub false spaces_re [RText (py " ")] t)
      with (normalize_whitespace t).
    rewrite normalize_whitespace_squeeze. apply squeeze_keeps_text.
  - intros x r. apply strip_head.
  - intros u x. apply strip_last.
Qed.

Lemma filter_spaces_out (keep : ascii -> bool) (w : str) :
  (forall x, isspace x = true -> keep x = false) ->
  Forall (fun x => isspace x = true) w -> filter keep w = [].
Proof.
  intros K. induction 1 as [|x w Hx _ IH]; [reflexivity|]. simpl.
  now rewrite (K x Hx).
Qed.

Lemma filter_hyphenation (keep : ascii -> bool) (a b : ascii)
  (w1 w2 out t : str) :
  keep "-" = false ->
  (forall x, isspace x = true -> keep x = false) ->
  Forall (fun x => isspace x = true) w1 ->
  Forall (fun x => isspace x = true) w2 ->
  filter keep out = filter keep t ->
  filter keep (a :: b :: out)
  = filter keep (a :: "-" :: w1 ++ "010" :: w2 ++ b :: t).
Proof.
  intros Hh Hs F1 F2 Ho. cbn [filter]. rewrite Hh, Ho.
  rewrite filter_app, (filter_spaces_out keep Hs F1). cbn [filter app].
  rewrite (Hs "010" eq_refl).
  rewrite filter_app, (filter_spaces_out keep Hs F2). reflexivity.
Qed.

Lemma dehyphenate_keeps_from (n : nat) :
  forall s p, length s <= n ->
  filter (fun c => negb (Ascii.eqb c "-" || isspace c))
         (flat_map (render [RGroup 1; RGroup 2])
                   (scan false hyphen_re 0 [] p s))
  = filter (fun c => negb (Ascii.eqb c "-" || isspace c)) s.
Proof.
  induction n as [|n IH]; intros s p Hn.
  - destruct s; [reflexivity|simpl in Hn; lia].
  - destruct s as [|x s]; [reflexivity|]. simpl in Hn.
    destruct (rmatch false hyphen_re (Cur p (x :: s) [])) as [|c1 l] eqn:E.
    + rewrite sub_miss by exact E. cbn [filter]. rewrite IH by lia.
      reflexivity.
    + assert (H1 : In c1 (c1 :: l)) by now left.
      rewrite <- E in H1. apply rmatch_sound, hyphen_sound in H1.
      destruct H1 as (a & w1 & w2 & b & t & Es & Ha & Hb & F1 & F2 & ->).
      inversion Es; subst x s; clear Es.
      assert (R : a :: "-" :: w1 ++ "010" :: w2 ++ b :: t
                  = a :: ("-" :: w1 ++ "010" :: w2 ++ [b]) ++ t).
      { simpl. rewrite <- !app_assoc. simpl. rewrite <- !app_assoc.
        reflexivity. }
      rewrite R in E. rewrite R at 1.
      erewrite sub_hit; [|exact E|reflexivity].
      cbn [expand flat_map lookup groups Nat.eqb app caps].
      apply filter_hyphenation; auto.
      * intros y Hy. rewrite Hy, orb_true_r. reflexivity.
      * apply IH. cbn [length] in Hn. rewrite !length_app in Hn.
        cbn [length] in Hn. rewrite !length_app in Hn.
        cbn [length] in Hn. lia.
Qed.

(** X7: de-hyphenation removes hyphens and whitespace only: every other
    character of the text comes out as it went in, in the same order. *)
Theorem dehyphenate_keeps_the_rest (t : str) :
  filter (fun c => negb (Ascii.eqb c "-" || isspace c)) (dehyphenate t)
  = filter (fun c => negb (Ascii.eqb c "-" || isspace c)) t.
Proof. apply (@dehyphenate_keeps_from (length t)). lia. Qed.

(** ** The patterns of the extractor as a label scanner *)

Lemma rmatch_lits_eq (ic : bool) (l : string) (c : cursor) :
  rmatch ic (lits l) c
  = if starts ic (rest c) (py l)
    then [Cur (lastc (prev c) (firstn (length (py l)) (rest c)))
              (skipn (length (py l)) (rest c)) (caps c)]
    else [].
Proof.
  unfold lits. revert c. induction (py l) as [|a w IH]; intro c.
  - cbn. now rewrite cursor_eta.
  - cbn [fold_right rmatch starts].
    destruct (rest c) as [|x s] eqn:E; [reflexivity|].
    destruct (atom_ok ic (Lit a) x); [|reflexivity].
    cbn [flat_map andb]. rewrite app_nil_r, IH. reflexivity.
Qed.

Lemma rmatch_before_eq (ic : bool) (ls : list string) (p : option ascii)
  (s : str) (cs : list (nat * str)) :
  ~ In "010" s ->
  rmatch ic (before ls) (Cur p s cs)
  = if at_boundary ic ls s then [Cur p s cs] else [].
Proof.
  intro N.
  assert (S1 : rmatch ic (before ls) (Cur p s cs) = []
               \/ rmatch ic (before ls) (Cur p s cs) = [Cur p s cs]).
  { unfold before. cbn [rmatch].
    destruct (rmatch ic _ (Cur p s cs)) as [|cm l] eqn:E; [now left|].
    right. cbn [prev rest]. f_equal. f_equal.
    apply (@no_groups_caps ic _ (alts_no_groups ls) (Cur p s cs) cm).
    apply rmatch_sound. rewrite E. now left. }
  pose proof (rmatch_before ic ls p s cs) as I.
  assert (B : at_boundary ic ls s = true
              <-> s = [] \/ s = ["010"]
                  \/ exists l, In l ls /\ starts ic s (py l) = true).
  { unfold at_boundary. destruct s as [|x s']; [tauto|].
    rewrite existsb_exists. split.
    - intros (l & ? & ?). eauto.
    - intros [H|[H|H]]; [discriminate| |exact H].
      exfalso. apply N. rewrite H. now left. }
  destruct (at_boundary ic ls s).
  - destruct S1 as [S1|S1]; [|exact S1].
    exfalso. apply (proj2 I); [apply B; reflexivity|exact S1].
  - destruct S1 as [S1|S1]; [exact S1|].
    assert (false = true); [|discriminate].
    apply B, I. rewrite S1. discriminate.
Qed.

Lemma run_all (ok : ascii -> bool) (s : str) :
  Forall (fun x => ok x = true) s -> run ok s = length s.
Proof.
  induction 1 as [|x s Hx _ IH]; [reflexivity|]. simpl. now rewrite Hx, IH.
Qed.

Lemma dot_run (ic : bool) (s : str) :
  ~ In "010" s -> run (atom_ok ic dot) s = length s.
Proof.
  intro N. apply run_all, Forall_forall. intros x Hx. apply dot_accepts.
  intro; subst. exact (N Hx).
Qed.

Lemma forward_app (pre s : str) (p : option ascii) (cs : list (nat * str)) :
  forward (length pre) (Cur p (pre ++ s) cs) = Cur (lastc p pre) s cs.
Proof. unfold forward. cbn [prev rest caps]. now rewrite skip_app. Qed.

Lemma taken_at (pre s : str) (p : option ascii) (cs : list (nat * str)) :
  taken (pre ++ s) (Cur p s cs) = pre.
Proof. apply (taken_app pre (Cur p s cs)). Qed.

Lemma rmatch_tail_eq (ic : bool) (ls : list string) (p : option ascii)
  (s : str) (cs : list (nat * str)) :
  ~ In "010" s ->
  rmatch ic (Seq (before ls) Eps) (Cur p s cs)
  = if at_boundary ic ls s then [Cur p s cs] else [].
Proof.
  intro N. cbn [rmatch]. rewrite rmatch_before_eq by exact N.
  destruct (at_boundary ic ls s); reflexivity.
Qed.

(** The lazy capture before a boundary, tried from the offset [pre] on. *)
Lemma lazy_capture_from (ic : bool) (n : nat) (ls : list string) (s : str) :
  forall pre p cs,
  ~ In "010" s ->
  hd_error
    (flat_map (rmatch ic (Seq (before ls) Eps))
       (map (fun c' => Cur (prev c') (rest c')
                           ((n, taken (pre ++ s) c') :: caps c'))
            (map (fun k => forward k (Cur p (pre ++ s) cs))
                 (seq (length pre) (S (length s))))))
  = Some (Cur (lastc p (pre ++ until ic ls s))
              (skipn (length (until ic ls s)) s)
              ((n, pre ++ until ic ls s) :: cs)).
Proof.
  induction s as [|x s IH]; intros pre p cs N.
  - cbn [length seq map flat_map until skipn].
    rewrite forward_app. cbn [prev rest caps]. rewrite taken_at.
    rewrite rmatch_tail_eq by exact N. cbn [at_boundary app hd_error].
    rewrite app_nil_r. reflexivity.
  - change (seq (length pre) (S (length (x :: s))))
      with (length pre :: seq (S (length pre)) (S (length s))).
    cbn [map flat_map]. rewrite forward_app.
    cbn [prev rest caps]. rewrite taken_at.
    rewrite rmatch_tail_eq by exact N. cbn [until].
    destruct (at_boundary ic ls (x :: s)).
    + cbn [app hd_error length skipn]. rewrite app_nil_r. reflexivity.
    + cbn [app].
      pose proof (IH (pre ++ [x]) p cs) as IH'.
      rewrite <- app_assoc in IH'. cbn [app] in IH'.
      rewrite length_app in IH'. cbn [length] in IH'.
      rewrite Nat.add_1_r in IH'.
      rewrite IH' by (intro H; apply N; now right).
      cbn [length skipn]. rewrite <- app_assoc. reflexivity.
Qed.

Lemma rmatch_seq (ic : bool) (r1 r2 : regex) (c : cursor) :
  rmatch ic (Seq r1 r2) c = flat_map (rmatch ic r2) (rmatch ic r1 c).
Proof. reflexivity. Qed.

Lemma hd_error_cons {A : Type} (l : list A) (a : A) :
  hd_error l = Some a -> exists l', l = a :: l'.
Proof. destruct l; simpl; intro H; inversion H. eauto. Qed.

(** The first match of [(.*?)(?=l1|...|$)] in a text without line breaks
    captures the text up to the first boundary. *)
Lemma lazy_capture (ic : bool) (n : nat) (ls : list string)
  (p : option ascii) (s : str) (cs : list (nat * str)) :
  ~ In "010" s ->
  exists l,
    rmatch ic (Seq (Group n (lazy_star dot)) (Seq (before ls) Eps))
           (Cur p s cs)
    = Cur (lastc p (until ic ls s)) (skipn (length (until ic ls s)) s)
          ((n, until ic ls s) :: cs) :: l.
Proof.
  intro N. apply hd_error_cons. rewrite rmatch_seq.
  pose proof (@lazy_capture_from ic n ls s [] p cs N) as H.
  cbn [app length] in H. refine (eq_trans _ H). f_equal. f_equal.
  unfold lazy_star. cbn [rmatch rest caps].
  rewrite dot_run by exact N. reflexivity.
Qed.

(** The name: everything up to the first label, compared with case. *)
Lemma name_match (t : str) :
  ~ In "010" t ->
  exists m,
    re_match false name_re t = Some m
    /\ group m 1 = Ok (until false labels t).
Proof.
  intro N. unfold re_match.
  assert (E : exists l,
             rmatch false name_re (Cur None t [])
             = Cur (lastc None (until false labels t))
                   (skipn (length (until false labels t)) t)
                   [(1, until false labels t)] :: l).
  { unfold name_re. cbn [seqs]. rewrite rmatch_seq.
    change (rmatch false Bol (Cur None t [])) with [Cur None t []].
    cbn [flat_map]. rewrite app_nil_r. apply lazy_capture. exact N. }
  destruct E as (l & ->). eexists. split; reflexivity.
Qed.

Lemma ws_ignores_case (x : ascii) : atom_ok true ws x = isspace x.
Proof. destruct x as [[] [] [] [] [] [] [] []]; reflexivity. Qed.

Lemma run_ext (f g : ascii -> bool) (s : str) :
  (forall x, f x = g x) -> run f s = run g s.
Proof.
  intro H. induction s as [|x s IH]; [reflexivity|]. simpl.
  now rewrite H, IH.
Qed.

Lemma lstrip_run (s : str) : lstrip s = skipn (run isspace s) s.
Proof.
  induction s as [|x s IH]; [reflexivity|]. simpl.
  destruct (isspace x); [exact IH|reflexivity].
Qed.

Lemma in_skipn (x : ascii) (k : nat) (s : str) : In x (skipn k s) -> In x s.
Proof.
  intro H. rewrite <- (firstn_skipn k s). apply in_or_app. now right.
Qed.

(** The first match of a field pattern at a place where its label starts. *)
Lemma field_capture_at (label : string) (p : option ascii) (s : str) :
  ~ In "010" s ->
  starts true s (py label) = true ->
  exists c' l,
    rmatch true (field_re label) (Cur p s []) = c' :: l
    /\ caps c'
       = [(1, until true (others label)
                    (lstrip (skipn (length (py label)) s)))].
Proof.
  intros N H. unfold field_re. cbn [seqs]. rewrite rmatch_seq.
  rewrite rmatch_lits_eq. cbn [rest prev caps]. rewrite H.
  cbn [flat_map]. rewrite app_nil_r, rmatch_seq.
  set (v := skipn (length (py label)) s).
  set (c1 := Cur _ v []).
  destruct (@rmatch_greedy_first true 0 ws c1 (Nat.le_0_l _)) as (l0 & E0).
  unfold star. rewrite E0. cbn [flat_map].
  assert (F : forward (run (atom_ok true ws) (rest c1)) c1
              = Cur (lastc (prev c1) (firstn (run isspace v) v))
                    (lstrip v) []).
  { unfold c1. cbn [rest prev].
    rewrite (run_ext _ _ v ws_ignores_case).
    rewrite forward_run by apply run_le_length.
    now rewrite lstrip_run. }
  rewrite F.
  destruct (@lazy_capture true 1 (others label)
              (lastc (prev c1) (firstn (run isspace v) v)) (lstrip v) [])
    as (l1 & E1).
  { intro Hn. apply N. apply lstrip_incl in Hn. exact (in_skipn _ _ _ Hn). }
  rewrite E1. cbn [app]. eexists. eexists. split; reflexivity.
Qed.

Lemma field_search_from (label : string) (t : str) :
  forall p,
  ~ In "010" t ->
  match after_label (py label) t with
  | None => search_from true (field_re label) p t = None
  | Some v =>
      exists m,
        search_from true (field_re label) p t = Some m
        /\ group m 1 = Ok (until true (others label) (lstrip v))
  end.
Proof.
  assert (M : forall p s, ~ In "010" s -> starts true s (py label) = false ->
                rmatch true (field_re label) (Cur p s []) = []).
  { intros p s N H.
    destruct (rmatch true (field_re label) (Cur p s [])) eqn:E;
      [reflexivity|].
    assert (K : starts true s (py label) = true)
      by (apply (@field_re_at label p s N); rewrite E; discriminate).
    congruence. }
  induction t as [|x t IH]; intros p N; cbn [after_label search_from].
  - destruct (starts true [] (py label)) eqn:H.
    + destruct (@field_capture_at label p [] N H) as (c' & l & E & C).
      rewrite E, skipn_nil in *. eexists. split; [reflexivity|].
      unfold group, match_of. cbn [groups]. rewrite C. reflexivity.
    + now rewrite M.
  - destruct (starts true (x :: t) (py label)) eqn:H.
    + destruct (@field_capture_at label p (x :: t) N H) as (c' & l & E & C).
      rewrite E. eexists. split; [reflexivity|].
      unfold group, match_of. cbn [groups]. rewrite C. reflexivity.
    + rewrite M by assumption. apply IH. intro K. apply N. now right.
Qed.

Lemma fields_form (item : string * regex) :
  In item fields -> snd item = field_re (fst item ++ ":").
Proof.
  intro H. unfold fields in H. cbn [In] in H.
  repeat (destruct H as [<-|H]; [reflexivity|]). destruct H.
Qed.

Lemma outcome_scanned (hash : set_impl) (t : str) (item : string * regex)
  (new : str) :
  ~ In "010" t ->
  In item fields ->
  field_outcome hash t item NA new ->
  scanned hash t (fst item) new.
Proof.
  intros N Hin Ho. unfold field_outcome in Ho. unfold scanned.
  rewrite (@fields_form item Hin) in Ho.
  pose proof (@field_search_from (fst item ++ ":") t None N) as S.
  fold (re_search true (field_re (fst item ++ ":")) t) in S.
  destruct (after_label (py (fst item ++ ":")) t) as [v|].
  - destruct S as (m & Em & Eg). rewrite Em in Ho.
    destruct Ho as (g & Eg' & Ho). rewrite Eg in Eg'.
    inversion Eg'; subst g. exact Ho.
  - rewrite S in Ho. exact Ho.
Qed.

(** The record, field by field, as the scanner gives it. *)
Lemma extract_scanned (hash : set_impl) (text_block : str) :
  exists r,
    extract_school_data hash text_block = Ok r
    /\ keys r = columns
    /\ dict_get "School Name" r
       = Ok (strip (until false labels (normalize text_block)))
    /\ forall field, In field (map fst fields) ->
         exists new,
           dict_get field r = Ok new
           /\ scanned hash (normalize text_block) field new.
Proof.
  pose proof (normalize_no_newline text_block) as N.
  unfold extract_school_data. set (t := normalize text_block) in *.
  destruct (@name_match t N) as (m & -> & ->). cbn [bind].
  match goal with |- exists r, for_each _ _ ?d = _ /\ _ => set (d1 := d) end.
  destruct (@for_each_fields hash t fields d1) as (r & Er & Kr & Or & Ir).
  - rewrite fields_keys. repeat constructor; simpl; intuition discriminate.
  - intros item Hit. split; [|now apply fields_groups].
    apply (in_map fst) in Hit. rewrite fields_keys in Hit.
    simpl in Hit. simpl. tauto.
  - exists r. split; [exact Er|]. split; [rewrite Kr; reflexivity|]. split.
    + rewrite Or; [reflexivity|]. rewrite fields_keys. simpl.
      intuition discriminate.
    + intros field Hf. apply in_map_iff in Hf.
      destruct Hf as (item & <- & Hit).
      destruct (Ir item Hit) as (old & new & Ho & Hn & Hout).
      exists new. split; [exact Hn|].
      apply outcome_scanned; [exact N|exact Hit|].
      assert (old = NA); [|now subst].
      apply (in_map fst) in Hit. rewrite fields_keys in Hit.
      cbn [In] in Hit.
      repeat (destruct Hit as [E|Hit];
              [rewrite <- E in Ho; cbn in Ho; now inversion Ho|]).
      destruct Hit.
Qed.

(** X8: the School Name of a record is the normalised span up to the first
    label, a label being one of the nine texts with its colon, compared with
    regard to case; the whole span when there is none. *)
Theorem school_name_is_text_before_first_label
  (hash : set_impl) (text_block : str) :
  exists r,
    extract_school_data hash text_block = Ok r
    /\ dict_get "School Name" r
       = Ok (strip (until false labels (normalize text_block))).
Proof.
  destruct (extract_scanned hash text_block) as (r & Er & _ & Hn & _).
  eauto.
Qed.

(** X9: each labelled field is found by a scan for its label: the first
    occurrence of the label, compared without regard to case, counts; the
    value runs from there to the next place where one of the other eight
    labels starts, or to the end; leading and trailing whitespace is
    dropped; a value that is empty keeps "NA", another is cleaned and
    stored.  For the six fields without cleaning the stored value is the
    scanned one. *)
Theorem fields_are_found_by_scanning (hash : set_impl) (text_block : str) :
  exists r,
    extract_school_data hash text_block = Ok r
    /\ (forall field, In field (map fst fields) ->
          exists new,
            dict_get field r = Ok new
            /\ scanned hash (normalize text_block) field new)
    /\ (forall field value,
          In field ["Location"; "Address"; "City/ Town"; "County"; "Country";
                    "Fax"]%string ->
          cleaned_value hash field value = Ok value).
Proof.
  destruct (extract_scanned hash text_block) as (r & Er & _ & _ & Hf).
  exists r. split; [exact Er|]. split; [exact Hf|].
  intros field value H. cbn [In] in H.
  repeat (destruct H as [<-|H]; [reflexivity|]). destruct H.
Qed.

(** ** Consequences of the scan *)

Lemma starts_with_case (s l : str) :
  starts false s l = true -> starts true s l = true.
Proof.
  revert s. induction l as [|a l IH]; intros s H; [reflexivity|].
  destruct s as [|b s]; [discriminate|]. cbn [starts atom_ok] in *.
  apply andb_prop in H. destruct H as [Hb H].
  apply Ascii.eqb_eq in Hb. subst b.
  now rewrite Ascii.eqb_refl, (IH _ H).
Qed.

Lemma starts_app (ic : bool) (u w l : str) :
  starts ic u l = true -> starts ic (u ++ w) l = true.
Proof.
  revert u. induction l as [|a l IH]; intros u H; [reflexivity|].
  destruct u as [|b u]; [discriminate|]. cbn [starts app] in *.
  apply andb_prop in H. destruct H as [Hb H]. now rewrite Hb, (IH _ H).
Qed.

Lemma after_label_none (l s : str) :
  after_label l s = None ->
  starts true s l = false
  /\ match s with [] => True | _ :: s' => after_label l s' = None end.
Proof.
  destruct s as [|x s]; cbn [after_label].
  - destruct (starts true [] l); [discriminate|auto].
  - destruct (starts true (x :: s) l); [discriminate|auto].
Qed.

Lemma until_all (ls : list string) (s : str) :
  (forall l, In l ls -> after_label (py l) s = None) ->
  until false ls s = s.
Proof.
  induction s as [|x s IH]; intro H; [reflexivity|]. cbn [until at_boundary].
  assert (B : existsb (fun l => starts false (x :: s) (py l)) ls = false).
  { destruct (existsb _ ls) eqn:E; [|reflexivity].
    apply existsb_exists in E. destruct E as (l & Hl & E).
    apply starts_with_case in E.
    destruct (after_label_none _ _ (H l Hl)) as [K _]. congruence. }
  rewrite B, IH; [reflexivity|].
  intros l Hl. destruct (after_label_none _ _ (H l Hl)) as [_ K]. exact K.
Qed.

Lemma labels_of_fields :
  labels = map (fun f => (f ++ ":")%string) (map fst fields).
Proof. reflexivity. Qed.

(** X10: a span in which none of the nine labels occurs, in whatever case,
    gives a record with the normalised span as School Name and "NA" in
    every other field. *)
Theorem span_without_labels_is_a_name (hash : set_impl) (text_block : str) :
  (forall l, In l labels -> after_label (py l) (normalize text_block) = None) ->
  extract_school_data hash text_block
  = Ok [("School Name", normalize text_block); ("Location", NA);
        ("Address", NA); ("City/ Town", NA); ("County", NA);
        ("Country", NA); ("Website", NA); ("Phone", NA); ("Email", NA);
        ("Fax", NA)]%string.
Proof.
  intro H.
  destruct (extract_scanned hash text_block) as (r & -> & Kr & Hn & Hf).
  f_equal.
  assert (F : forall field, In field (map fst fields) ->
                dict_get field r = Ok NA).
  { intros field Hin. destruct (Hf field Hin) as (new & -> & Hs).
    unfold scanned in Hs. rewrite H in Hs; [now subst|].
    rewrite labels_of_fields.
    exact (in_map (fun f => (f ++ ":")%string) _ _ Hin). }
  rewrite until_all in Hn by exact H.
  unfold normalize in Hn at 1. rewrite strip_idem in Hn.
  fold (normalize text_block) in Hn.
  rewrite <- (@dict_rebuild NA r).
  - rewrite Kr. unfold columns. cbn [map]. rewrite Hn.
    rewrite !F by (rewrite fields_keys; simpl; tauto). reflexivity.
  - rewrite Kr. unfold columns.
    repeat constructor; simpl; intuition discriminate.
Qed.

Lemma span_without_labels_is_a_name_witness :
  extract_school_data first_seen (py "  Sunrise   Academy Nairobi ")
  = Ok [("School Name", py "Sunrise Academy Nairobi"); ("Location", NA);
        ("Address", NA); ("City/ Town", NA); ("County", NA);
        ("Country", NA); ("Website", NA); ("Phone", NA); ("Email", NA);
        ("Fax", NA)]%string.
Proof.
  assert (H : forall l, In l labels ->
                after_label (py l)
                  (normalize (py "  Sunrise   Academy Nairobi ")) = None).
  { intros l Hl. unfold labels in Hl. cbn [In] in Hl.
    repeat (destruct Hl as [<-|Hl]; [vm_compute; reflexivity|]).
    destruct Hl. }
  exact (@span_without_labels_is_a_name first_seen
           (py "  Sunrise   Academy Nairobi ") H).
Defined.

Lemma until_prefix (ic : bool) (ls : list string) (s : str) :
  exists w, s = until ic ls s ++ w.
Proof.
  induction s as [|x s (w & IH)]; [exists []; reflexivity|]. cbn [until].
  destruct (at_boundary ic ls (x :: s)).
  - exists (x :: s). reflexivity.
  - exists w. cbn [app]. now rewrite <- IH.
Qed.

Lemma after_label_nil (l : str) : l <> [] -> after_label l [] = None.
Proof. destruct l; [tauto|reflexivity]. Qed.

(** No label of the boundary set occurs in the text before the boundary. *)
Lemma until_has_no_label (ls : list string) (l : string) (s : str) :
  In l ls -> py l <> [] ->
  after_label (py l) (until true ls s) = None.
Proof.
  intros Hl Hn. induction s as [|x s IH]; cbn [until].
  - now apply after_label_nil.
  - destruct (at_boundary true ls (x :: s)) eqn:B;
      [now apply after_label_nil|].
    cbn [after_label].
    destruct (starts true (x :: until true ls s) (py l)) eqn:E; [|exact IH].
    exfalso. destruct (until_prefix true ls s) as (w & Hw).
    apply (starts_app _ _ w) in E. cbn [app] in E. rewrite <- Hw in E.
    cbn [at_boundary] in B.
    assert (K : existsb (fun l0 => starts true (x :: s) (py l0)) ls = true)
      by (apply existsb_exists; eauto).
    congruence.
Qed.

Lemma after_label_suffix (l pre s : str) :
  after_label l (pre ++ s) = None -> after_label l s = None.
Proof.
  induction pre as [|x pre IH]; [auto|]. intro H.
  apply after_label_none in H. destruct H as [_ H]. auto.
Qed.

Lemma after_label_prefix (l s post : str) :
  l <> [] -> after_label l (s ++ post) = None -> after_label l s = None.
Proof.
  intro N. induction s as [|x s IH]; intro H; [now apply after_label_nil|].
  apply after_label_none in H. destruct H as [H1 H2]. cbn [after_label].
  destruct (starts true (x :: s) l) eqn:E; [|auto].
  apply (starts_app _ _ post) in E. cbn [app] in *. congruence.
Qed.

Lemma after_label_strip (l s : str) :
  l <> [] -> after_label l s = None -> after_label l (strip s) = None.
Proof.
  intros N H. unfold strip.
  destruct (lstrip_split s) as (sp & E & _).
  destruct (rstrip_split (lstrip s)) as (sp' & E' & _).
  rewrite E in H. apply after_label_suffix in H.
  rewrite E' in H. now apply after_label_prefix in H.
Qed.

(** X11: the value stored for Location, Address, City/ Town, County, Country
    or Fax never holds one of the other eight labels: the capture stops
    before the next label and does not swallow it. *)
Theorem plain_value_holds_no_other_label
  (hash : set_impl) (text_block : str) (r : dict) (field l : string)
  (v : str) :
  extract_school_data hash text_block = Ok r ->
  In field ["Location"; "Address"; "City/ Town"; "County"; "Country";
            "Fax"]%string ->
  dict_get field r = Ok v ->
  In l (others (field ++ ":")) ->
  after_label (py l) v = None.
Proof.
  intros Er Hf Hv Hl.
  assert (Ll : In l labels) by (unfold others in Hl; apply filter_In in Hl; tauto).
  assert (Nl : py l <> []).
  { unfold labels in Ll. cbn [In] in Ll.
    repeat (destruct Ll as [<-|Ll]; [discriminate|]). destruct Ll. }
  destruct (extract_scanned hash text_block) as (r' & Er' & _ & _ & Hs).
  rewrite Er in Er'. inversion Er'; subst r'; clear Er'.
  destruct (Hs field) as (new & Hn & Hsc).
  { rewrite fields_keys. cbn [In] in *. tauto. }
  rewrite Hv in Hn. inversion Hn; subst new; clear Hn.
  assert (Na : after_label (py l) NA = None).
  { unfold labels in Ll. cbn [In] in Ll.
    repeat (destruct Ll as [<-|Ll]; [reflexivity|]). destruct Ll. }
  unfold scanned in Hsc.
  destruct (after_label (py (field ++ ":")) (normalize text_block)) as [v0|];
    [|now subst].
  pose proof (@after_label_strip (py l)
                (until true (others (field ++ ":")) (lstrip v0)) Nl
                (until_has_no_label _ _ _ Hl Nl)) as K.
  destruct (strip (until true (others (field ++ ":")) (lstrip v0)))
    as [|y value]; [now subst|].
  assert (E : cleaned_value hash field (y :: value) = Ok (y :: value)).
  { cbn [In] in Hf.
    repeat (destruct Hf as [<-|Hf]; [reflexivity|]). destruct Hf. }
  rewrite E in Hsc. inversion Hsc; subst. exact K.
Qed.

Lemma plain_value_holds_no_other_label_witness :
  exists r,
    extract_school_data first_seen
      (py "Sunrise Academy Address: 123 Main St City/ Town: Nairobi") = Ok r
    /\ dict_get "Address" r = Ok (py "123 Main St")
    /\ after_label (py "City/ Town:") (py "123 Main St") = None.
Proof.
  eexists. split; [vm_compute; reflexivity|]. split; [reflexivity|].
  eapply (@plain_value_holds_no_other_label first_seen
            (py "Sunrise Academy Address: 123 Main St City/ Town: Nairobi")
            _ "Address" "City/ Town:").
  - vm_compute. reflexivity.
  - cbn [In]. tauto.
  - reflexivity.
  - vm_compute. tauto.
Defined.

(** ** Telephone numbers, e-mail addresses and web addresses *)

Lemma clean_phone_found (value phone : str) :
  In phone (re_findall false phone_re value) ->
  exists cleaned,
    clean_phone phone = Ok cleaned
    /\ cleaned
       = (if (length (filter isdecimal phone) =? 9)
             && match filter isdecimal phone with
                | c :: _ => mem c (py "23456789")
                | [] => false
                end
          then "0"%char :: filter isdecimal phone
          else filter isdecimal phone)
    /\ forallb isdecimal cleaned = true
    /\ 9 <= length cleaned <= 12
    /\ (length cleaned = 9 ->
        exists c d, cleaned = c :: d /\ mem c (py "23456789") = false).
Proof.
  intro H. apply findall_spells, phone_digits in H.
  unfold clean_phone. rewrite strip_nondigits.
  set (d := filter isdecimal phone) in *.
  assert (D : forallb isdecimal d = true).
  { apply forallb_forall. intros x Hx. apply filter_In in Hx. tauto. }
  assert (L : 9 <= length d <= 12) by (destruct H as [H|[H _]]; lia).
  assert (T : (length d =? 12) && startswith d (py "254") = false).
  { destruct H as [H|(_ & d' & E)].
    - destruct (Nat.eqb_spec (length d) 12); [lia|reflexivity].
    - rewrite E. apply andb_false_r. }
  destruct (Nat.eqb_spec (length d) 9) as [E9|N9].
  - destruct d as [|c0 d']; [simpl in E9; lia|].
    unfold index. cbn [nth_error bind andb].
    destruct (mem c0 (py "23456789")) eqn:M.
    + exists ("0"%char :: c0 :: d'). split; [reflexivity|].
      split; [reflexivity|]. split; [exact D|]. cbn [length] in *.
      split; lia.
    + rewrite T. exists (c0 :: d'). split; [reflexivity|].
      split; [reflexivity|]. split; [exact D|]. split; [exact L|].
      intros _. exists c0, d'. auto.
  - cbn [bind andb]. rewrite T. exists d. split; [reflexivity|].
    split; [reflexivity|]. split; [exact D|]. split; [exact L|]. lia.
Qed.

(** X12: the loop over the telephone numbers found raises nothing, and what
    it appends is the digits of the number found, with a 0 put in front
    exactly when they are nine and the first is one of 2 to 9, and as they
    are otherwise: nine to twelve digits and nothing else, of which the
    first is none of 2 to 9 when they are nine. *)
Theorem found_phone_is_cleaned_to_digits (value phone : str) :
  In phone (re_findall false phone_re value) ->
  exists cleaned,
    clean_phone phone = Ok cleaned
    /\ cleaned
       = (if (length (filter isdecimal phone) =? 9)
             && match filter isdecimal phone with
                | c :: _ => mem c (py "23456789")
                | [] => false
                end
          then "0"%char :: filter isdecimal phone
          else filter isdecimal phone)
    /\ forallb isdecimal cleaned = true
    /\ 9 <= length cleaned <= 12
    /\ (length cleaned = 9 ->
        exists c d, cleaned = c :: d /\ mem c (py "23456789") = false).
Proof. apply clean_phone_found. Qed.

Lemma found_phone_is_cleaned_to_digits_witness :
  exists cleaned,
    clean_phone (py "722-123-456") = Ok cleaned
    /\ cleaned
       = (if (length (filter isdecimal (py "722-123-456")) =? 9)
             && match filter isdecimal (py "722-123-456") with
                | c :: _ => mem c (py "23456789")
                | [] => false
                end
          then "0"%char :: filter isdecimal (py "722-123-456")
          else filter isdecimal (py "722-123-456"))
    /\ forallb isdecimal cleaned = true
    /\ 9 <= length cleaned <= 12
    /\ (length cleaned = 9 ->
        exists c d, cleaned = c :: d /\ mem c (py "23456789") = false).
Proof.
  apply (@found_phone_is_cleaned_to_digits
           (py "Tel 722-123-456 (office)") (py "722-123-456")).
  vm_compute. auto.
Defined.

Lemma lits_spell (l w : str) :
  spells false (fold_right (fun c r => Seq (Chr (Lit c)) r) Eps l) w ->
  w = l.
Proof.
  revert w. induction l as [|a l IH]; intros w H; cbn [fold_right spells] in H.
  - exact H.
  - destruct H as (w1 & w2 & -> & (x & -> & Hx) & H2).
    cbn [atom_ok] in Hx. apply Ascii.eqb_eq in Hx. subst x.
    cbn [app]. f_equal. now apply IH.
Qed.

Lemma at_sign_only (x : ascii) :
  atom_ok true (Lit "@") x = true -> x = "@"%char.
Proof.
  destruct x as [[] [] [] [] [] [] [] []]; vm_compute; intros; auto;
    discriminate.
Qed.

Lemma full_stop_only (x : ascii) :
  atom_ok true (Lit ".") x = true -> x = "."%char.
Proof.
  destruct x as [[] [] [] [] [] [] [] []]; vm_compute; intros; auto;
    discriminate.
Qed.

Lemma email_local_not_space (c : ascii) :
  atom_ok true (OneOf (fun c => isupper c || islower c || between 48 57 c
                                || chars "._%+-" c)) c = true ->
  negb (isspace c) = true.
Proof.
  destruct c as [[] [] [] [] [] [] [] []]; vm_compute; intros; auto;
    discriminate.
Qed.

Lemma email_host_not_space (c : ascii) :
  atom_ok true (OneOf (fun c => isupper c || islower c || between 48 57 c
                                || chars ".-" c)) c = true ->
  negb (isspace c) = true.
Proof.
  destruct c as [[] [] [] [] [] [] [] []]; vm_compute; intros; auto;
    discriminate.
Qed.

Lemma email_last_not_space (c : ascii) :
  atom_ok true (OneOf (fun c => isupper c || chars "|" c || islower c)) c
  = true ->
  negb (isspace c) = true.
Proof.
  destruct c as [[] [] [] [] [] [] [] []]; vm_compute; intros; auto;
    discriminate.
Qed.

Lemma Forall_forallb (P : ascii -> Prop) (q : ascii -> bool) (w : str) :
  (forall c, P c -> q c = true) -> Forall P w -> forallb q w = true.
Proof.
  intros I F. apply forallb_forall. rewrite Forall_forall in F. auto.
Qed.

(** X13: each e-mail address found stands in the captured value and has the
    form local@host.tld with a non-empty local part and host and a last
    part of two characters or more; it holds no whitespace. *)
Theorem found_email_shape (value e : str) :
  In e (re_findall true email_re value) ->
  (exists pre post, value = pre ++ e ++ post)
  /\ (exists local host tld,
        e = local ++ "@"%char :: host ++ "."%char :: tld
        /\ local <> [] /\ host <> [] /\ 2 <= length tld)
  /\ forallb (fun c => negb (isspace c)) e = true.
Proof.
  intro H. split; [exact (findall_substring _ _ _ _ H)|].
  apply findall_spells in H.
  unfold email_re, seqs, plus in H. cbn [spells within] in H.
  destruct H as (w0 & r0 & -> & -> & w1 & r1 & -> & (F1 & L1 & _)
                 & wa & r2 & -> & (a & -> & Ha)
                 & w2 & r3 & -> & (F2 & L2 & _)
                 & wd & r4 & -> & (d & -> & Hd)
                 & w3 & r5 & -> & (F3 & L3 & _)
                 & w4 & r6 & -> & -> & ->).
  apply at_sign_only in Ha. apply full_stop_only in Hd. subst a d.
  rewrite app_nil_r. cbn [app]. split.
  - exists w1, w2, w3. split; [reflexivity|].
    split; [destruct w1; [simpl in L1; lia|discriminate]|].
    split; [destruct w2; [simpl in L2; lia|discriminate]|]. exact L3.
  - rewrite forallb_app. cbn [forallb]. rewrite forallb_app. cbn [forallb].
    rewrite (Forall_forallb _ email_local_not_space F1).
    rewrite (Forall_forallb _ email_host_not_space F2).
    rewrite (Forall_forallb _ email_last_not_space F3).
    reflexivity.
Qed.

Lemma found_email_shape_witness :
  (exists pre post,
     py "mail to Info@Sunrise.ac.ke, please" = pre ++ py "Info@Sunrise.ac.ke" ++ post)
  /\ (exists local host tld,
        py "Info@Sunrise.ac.ke" = local ++ "@"%char :: host ++ "."%char :: tld
        /\ local <> [] /\ host <> [] /\ 2 <= length tld)
  /\ forallb (fun c => negb (isspace c)) (py "Info@Sunrise.ac.ke") = true.
Proof.
  apply (@found_email_shape (py "mail to Info@Sunrise.ac.ke, please")
           (py "Info@Sunrise.ac.ke")).
  vm_compute. auto.
Defined.

(** X14: each web address found stands in the captured value, starts with
    http://, https:// or www. in small letters, goes on for one character
    at least, and holds neither whitespace nor a comma. *)
Theorem found_website_shape (value w : str) :
  In w (re_findall false website_re value) ->
  (exists pre post, value = pre ++ w ++ post)
  /\ (exists scheme tail,
        w = scheme ++ tail
        /\ In scheme [py "http://"; py "https://"; py "www."]
        /\ tail <> [])
  /\ forallb (fun c => negb (isspace c || Ascii.eqb c ",")) w = true.
Proof.
  intro H. split; [exact (findall_substring _ _ _ _ H)|].
  apply findall_spells in H.
  unfold website_re, seqs, plus, opt in H.
  cbn [spells within] in H.
  destruct H as (sc & r0 & -> & Hs & tail & r1 & -> & (F & L & _) & ->).
  rewrite app_nil_r.
  assert (T : forallb (fun c => negb (isspace c || Ascii.eqb c ",")) tail
              = true).
  { apply forallb_forall. rewrite Forall_forall in F. intros c Hc.
    specialize (F c Hc). cbn [atom_ok chars mem py existsb] in F.
    cbn in F. rewrite orb_false_r in F. exact F. }
  assert (S : In sc [py "http://"; py "https://"; py "www."]).
  { destruct Hs as [Hs|Hs].
    - destruct Hs as (w1 & r1 & -> & H1 & w2 & r2 & -> & (F2 & _ & U2)
                      & w3 & r3 & -> & H3 & ->).
      apply lits_spell in H1. apply lits_spell in H3. subst w1 w3.
      rewrite app_nil_r.
      destruct w2 as [|x w2]; [left; reflexivity|].
      destruct w2; [|simpl in U2; lia].
      inversion F2 as [|? ? Hx _]; subst. cbn [atom_ok] in Hx.
      apply Ascii.eqb_eq in Hx. subst x. right. left. reflexivity.
    - apply lits_spell in Hs. subst sc. right. right. left. reflexivity. }
  split.
  - exists sc, tail. split; [reflexivity|]. split; [exact S|].
    destruct tail; [simpl in L; lia|discriminate].
  - rewrite forallb_app, T, andb_true_r.
    cbn [In] in S. destruct S as [<-|[<-|[<-|[]]]]; reflexivity.
Qed.

Lemma found_website_shape_witness :
  (exists pre post,
     py "see www.sunrise.ac.ke, or call" = pre ++ py "www.sunrise.ac.ke" ++ post)
  /\ (exists scheme tail,
        py "www.sunrise.ac.ke" = scheme ++ tail
        /\ In scheme [py "http://"; py "https://"; py "www."]
        /\ tail <> [])
  /\ forallb (fun c => negb (isspace c || Ascii.eqb c ","))
             (py "www.sunrise.ac.ke") = true.
Proof.
  apply (@found_website_shape (py "see www.sunrise.ac.ke, or call")
           (py "www.sunrise.ac.ke")).
  vm_compute. auto.
Defined.

(** ** The three fields that hold lists *)

Lemma joined_items (hash : set_impl) (l : list str) :
  exists items,
    NoDup items /\ (forall x, In x items <-> In x l)
    /\ joined hash l = match items with
                       | [] => NA
                       | _ => join (py ", ") items
                       end.
Proof.
  destruct l as [|a l].
  - exists []. split; [constructor|]. split; [tauto|reflexivity].
  - exists (elements hash (a :: l)).
    pose proof (elements_perm hash (a :: l)) as P.
    split; [|split].
    + apply (Permutation_NoDup (Permutation_sym P)), NoDup_nodup.
    + intro x. split; [apply elements_in|].
      intro Hx. apply (Permutation_in _ (Permutation_sym P)).
      now apply nodup_In.
    + unfold joined.
      destruct (elements hash (a :: l)) eqn:E; [|reflexivity].
      exfalso. apply (@elements_nonempty hash (a :: l)); [discriminate|exact E].
Qed.

Lemma Forall2_in_left {A B : Type} (R : A -> B -> Prop) (l : list A)
  (bs : list B) (a : A) :
  Forall2 R l bs -> In a l -> exists b, In b bs /\ R a b.
Proof.
  induction 1 as [|a0 b0 l bs H0 _ IH]; intros Ha; [destruct Ha|].
  destruct Ha as [->|Ha].
  - exists b0. split; [now left|exact H0].
  - destruct (IH Ha) as (b & Hb & Hr). exists b. split; [now right|exact Hr].
Qed.

(** X15: what is stored for a captured Phone, Email or Website value: "NA"
    when nothing is found in it, else the items found (the telephone numbers
    after cleaning), each different one once, joined by a comma and a space
    in the order in which the set gives them. *)
Theorem list_fields_hold_each_item_once (hash : set_impl) (value : str) :
  (exists items,
     NoDup items
     /\ (forall x, In x items <->
                   exists phone, In phone (re_findall false phone_re value)
                                 /\ clean_phone phone = Ok x)
     /\ cleaned_value hash "Phone" value
        = Ok match items with [] => NA | _ => join (py ", ") items end)
  /\ (exists items,
        NoDup items
        /\ (forall x, In x items <-> In x (re_findall true email_re value))
        /\ cleaned_value hash "Email" value
           = Ok match items with [] => NA | _ => join (py ", ") items end)
  /\ (exists items,
        NoDup items
        /\ (forall x, In x items <-> In x (re_findall false website_re value))
        /\ cleaned_value hash "Website" value
           = Ok match items with [] => NA | _ => join (py ", ") items end).
Proof.
  split; [|split].
  - destruct (@collect_ok _ _ clean_phone (re_findall false phone_re value))
      as (cps & Ec & _).
    { intros phone Hp.
      destruct (clean_phone_found _ _ Hp) as (c & Hc & _). eauto. }
    destruct (joined_items hash cps) as (items & Nd & Hin & Ej).
    exists items. split; [exact Nd|]. split.
    + intro x. rewrite Hin. split.
      * intro Hx. exact (@collect_in _ _ clean_phone _ _ Ec _ Hx).
      * intros (phone & Hp & Hc).
        destruct (@Forall2_in_left _ _ _ _ _ phone
                    (@collect_Forall2 _ _ clean_phone _ _ Ec) Hp)
          as (b & Hb & Hr).
        rewrite Hc in Hr. inversion Hr; subst. exact Hb.
    + unfold cleaned_value. cbn [String.eqb Ascii.eqb Bool.eqb].
      rewrite Ec. cbn [bind]. now rewrite Ej.
  - destruct (joined_items hash (re_findall true email_re value))
      as (items & Nd & Hin & Ej).
    exists items. split; [exact Nd|]. split; [exact Hin|].
    unfold cleaned_value. cbn [String.eqb Ascii.eqb Bool.eqb].
    now rewrite Ej.
  - destruct (joined_items hash (re_findall false website_re value))
      as (items & Nd & Hin & Ej).
    exists items. split; [exact Nd|]. split; [exact Hin|].
    unfold cleaned_value. cbn [String.eqb Ascii.eqb Bool.eqb].
    now rewrite Ej.
Qed.

(** ** The spans handed to the extractor *)

Lemma pair_up_ind (P : list str -> Prop) :
  P [] -> (forall b, P [b]) ->
  (forall b1 b2 rest, P rest -> P (b1 :: b2 :: rest)) ->
  forall l, P l.
Proof.
  intros H0 H1 H2. fix IH 1. intros [|b1 [|b2 rest]].
  - exact H0.
  - apply H1.
  - apply H2, IH.
Qed.

Lemma pair_up_concat (l : list str) : concat (pair_up l) = concat l.
Proof.
  induction l as [|b|b1 b2 rest IH] using pair_up_ind; [reflexivity..|].
  cbn [pair_up concat]. now rewrite IH, app_assoc.
Qed.

Lemma pair_up_starts (P : ascii -> Prop) (l : list str) :
  (forall b, In b l -> exists x r, b = x :: r /\ P x) ->
  forall span, In span (pair_up l) -> exists x r, span = x :: r /\ P x.
Proof.
  induction l as [|b|b1 b2 rest IH] using pair_up_ind; intros H span Hs.
  - destruct Hs.
  - apply H. exact Hs.
  - cbn [pair_up] in Hs. destruct Hs as [<-|Hs].
    + destruct (H b1) as (x & r & -> & Hx); [now left|].
      exists x, (r ++ b2). auto.
    + apply IH; [|exact Hs]. intros b Hb. apply H. now right; right.
Qed.

Lemma in_concat_split (l : list str) (b : str) :
  In b l -> exists pre post, concat l = pre ++ b ++ post.
Proof.
  intro H. apply in_split in H. destruct H as (l1 & l2 & ->).
  exists (concat l1), (concat l2). now rewrite concat_app.
Qed.

Lemma capital_not_space (x : ascii) :
  between 65 90 x = true -> isspace x = false.
Proof.
  destruct x as [[] [] [] [] [] [] [] []]; vm_compute; intros; auto;
    discriminate.
Qed.

(** X16: the spans that [process_pdf] hands to the extractor are the text
    after the first part cut into consecutive pieces; each starts with a
    capital letter A-Z and is already whitespace-normal, so that of the
    extractor's own normalisation only the removal of trailing whitespace
    acts on it. *)
Theorem extractor_spans_are_normal (full_text : str) :
  let t := normalize_whitespace (dehyphenate full_text) in
  let spans := pair_up (school_blocks t) in
  (exists header, t = header ++ concat spans)
  /\ forall span, In span spans ->
       (exists x r, span = x :: r /\ between 65 90 x = true)
       /\ normalize_whitespace span = span
       /\ normalize span = rstrip span.
Proof.
  intros t spans.
  assert (Hp : exists header, t = header ++ concat spans).
  { unfold spans. rewrite pair_up_concat. unfold school_blocks.
    pose proof (split_ahead_concat false anchor_body t) as H.
    fold anchor_re in H.
    pose proof (split_counts false anchor_re t) as L.
    destruct (re_split false anchor_re t) as [|h bs]; [simpl in L; lia|].
    exists h. simpl in *. auto. }
  split; [exact Hp|]. intros span Hs.
  assert (Hc : exists x r, span = x :: r /\ between 65 90 x = true).
  { apply (@pair_up_starts (fun x => between 65 90 x = true)
             (school_blocks t)); [|exact Hs].
    intros b Hb. exact (@blocks_start t [] None b Hb). }
  split; [exact Hc|].
  destruct Hc as (x & r & Ex & Bx). apply capital_not_space in Bx.
  assert (Ew : normalize_whitespace span = span).
  { destruct Hp as (header & Et).
    destruct (@in_concat_split spans span Hs) as (pre & post & Ec).
    assert (Ft : squeeze false t = t).
    { unfold t. rewrite normalize_whitespace_squeeze. apply squeeze_idem. }
    rewrite Et, Ec, app_assoc in Ft.
    apply squeeze_fix_parts in Ft. destruct Ft as [_ Ft].
    apply squeeze_fix_parts in Ft. destruct Ft as [Ft _].
    rewrite normalize_whitespace_squeeze. rewrite Ex in *.
    cbn [squeeze] in *. rewrite Bx in *. exact Ft. }
  split; [exact Ew|].
  unfold normalize. change (strip (normalize_whitespace span) = rstrip span).
  rewrite Ew. unfold strip. rewrite Ex. cbn [lstrip]. now rewrite Bx.
Qed.

End MainMore.
